(** * featherbread/randomizer: the command core and the Slack token cache

    A shallow embedding of
    - [internal/randomizer]: [parseArgs], [newRequest], [App.Main], the
      [appHandlers] table, [NewApp] and [shuffle];
    - [internal/slack/token.go]: [TokenProviderFromEnv], [ssmTTLFromEnv],
      [StaticToken] and [AWSParameter];
    followed by the properties the specification states about them. *)

From stdpp Require Import base option list numbers strings gmap.
From Stdlib Require Import ZArith Lia Ascii.

Local Open Scope string_scope.

(** ** Go strings and [fmt] verbs *)

Module Fmt.

(** The double quote character, U+0022. *)
Definition dquote : ascii := Ascii.ascii_of_nat 34.
(** The backslash character, U+005C. *)
Definition backslash : ascii := Ascii.ascii_of_nat 92.

Definition hexdigit (n : nat) : ascii :=
  Ascii.ascii_of_nat (if Nat.ltb n 10 then 48 + n else 87 + n).

(** One byte of [strconv.Quote]'s output. The ASCII range is as in Go: the
    quote and the backslash are escaped, printable characters stand for
    themselves, control characters use their short escape or [\xNN]. Bytes
    from 0x80 up are copied through (Go does so for printable runes); the
    parser only ever quotes one of its three ASCII flags. *)
Definition quote_byte (c : ascii) : string :=
  let n := Ascii.nat_of_ascii c in
  if Nat.eqb n 34 then String backslash (String dquote EmptyString)
  else if Nat.eqb n 92 then String backslash (String backslash EmptyString)
  else if Nat.eqb n 7 then String backslash "a"
  else if Nat.eqb n 8 then String backslash "b"
  else if Nat.eqb n 12 then String backslash "f"
  else if Nat.eqb n 10 then String backslash "n"
  else if Nat.eqb n 13 then String backslash "r"
  else if Nat.eqb n 9 then String backslash "t"
  else if Nat.eqb n 11 then String backslash "v"
  else if Nat.ltb n 32 || Nat.eqb n 127 then
    String backslash
      (String "x" (String (hexdigit (n / 16)) (String (hexdigit (n mod 16)) EmptyString)))
  else String c EmptyString.

Fixpoint quote_body (s : string) : string :=
  match s with
  | EmptyString => EmptyString
  | String c s' => quote_byte c ++ quote_body s'
  end.

(** The [%q] verb on a string: [strconv.Quote]. *)
Definition Quote (s : string) : string :=
  String dquote (quote_body s ++ String dquote EmptyString).

(** [needle] occurs in [hay] as a contiguous substring. *)
Fixpoint contains (needle hay : string) : bool :=
  String.prefix needle hay
  || match hay with
     | EmptyString => false
     | String _ hay' => contains needle hay'
     end.

End Fmt.

(** ** internal/randomizer *)

Module Randomizer.

(** [type operation int] with its six constants, in [iota] order. *)
Inductive operation : Type :=
  | makeSelection
  | showHelp
  | listGroups
  | showGroup
  | saveGroup
  | deleteGroup.

(** The integer value of each constant. *)
Definition operation_iota (op : operation) : nat :=
  match op with
  | makeSelection => 0
  | showHelp => 1
  | listGroups => 2
  | showGroup => 3
  | saveGroup => 4
  | deleteGroup => 5
  end.

Definition operation_of_iota (n : nat) : option operation :=
  match n with
  | 0 => Some makeSelection
  | 1 => Some showHelp
  | 2 => Some listGroups
  | 3 => Some showGroup
  | 4 => Some saveGroup
  | 5 => Some deleteGroup
  | _ => None
  end.

#[global] Instance operation_eq_dec : EqDecision operation.
Proof. solve_decision. Defined.

#[global] Instance operation_countable : Countable operation.
Proof.
  apply (inj_countable operation_iota operation_of_iota).
  intros []; reflexivity.
Defined.

Definition operation_String (op : operation) : string :=
  match op with
  | makeSelection => "select"
  | showHelp => "help"
  | listGroups => "list"
  | showGroup => "show"
  | saveGroup => "save"
  | deleteGroup => "delete"
  end.

(** [operation.String] as Go runs it, on the integer under the type: the
    switch compares with the six constants in turn, and a value that is
    none of them falls out of it to the final [return] of the empty
    string. *)
Definition operation_String_int (op : Z) : string :=
  if (op =? 0)%Z then "select"
  else if (op =? 1)%Z then "help"
  else if (op =? 2)%Z then "list"
  else if (op =? 3)%Z then "show"
  else if (op =? 4)%Z then "save"
  else if (op =? 5)%Z then "delete"
  else EmptyString.

(** [type Error struct { cause error; helpText string }]; the cause is kept
    as the message of the wrapped error. *)
Record Error : Type := mkError { cause : string; helpText : string }.

Definition Error_HelpText (e : Error) : string := helpText e.

(** The error [parseArgs] builds when a flag comes without its operand. *)
Definition MissingOperand (flag : string) : Error :=
  {| cause := Fmt.Quote flag ++ " flag requires an argument";
     helpText := "Whoops, " ++ Fmt.Quote flag ++ " requires an argument!" |}.

(** [parseArgs]: the four results are (op, operand, opargs, err). The
    default case of the switch returns first, as in the source; [op] keeps
    the flag's operation on the error return. *)
Definition parseArgs (args : list string)
  : operation * string * list string * option Error :=
  match args with
  | [] => (showHelp, EmptyString, args, None)
  | arg0 :: _ =>
    if bool_decide (arg0 = "/help")
       || (Nat.eqb (length args) 1 && bool_decide (arg0 = "help"))
    then (showHelp, EmptyString, args, None)
    else
      let flagged (op : operation) :=
        if Nat.ltb (length args) 2
        then (op, EmptyString, [], Some (MissingOperand arg0))
        else (op, default EmptyString (args !! 1), drop 2 args, None) in
      if bool_decide (arg0 = "/list") then (listGroups, EmptyString, args, None)
      else if bool_decide (arg0 = "/show") then flagged showGroup
      else if bool_decide (arg0 = "/save") then flagged saveGroup
      else if bool_decide (arg0 = "/delete") then flagged deleteGroup
      else (makeSelection, EmptyString, args, None)
  end.

(** The flags of [parseArgs] that take a group name, each with its operation. *)
Definition operand_flags : list (string * operation) :=
  [ ("/show", showGroup); ("/save", saveGroup); ("/delete", deleteGroup) ].

(** Every flag [parseArgs] knows. *)
Definition known_flags : list string :=
  [ "/help"; "/list"; "/show"; "/save"; "/delete" ].

(** [options[i], options[j] = options[j], options[i]], the closure [shuffle]
    hands to [rand.Shuffle]. Both elements are read before either is
    written; an index out of range panics ([None]). *)
Definition swap {A : Type} (i j : nat) (options : list A) : option (list A) :=
  oi ← options !! i;
  oj ← options !! j;
  Some (<[j := oi]> (<[i := oj]> options)).

(** [math/rand/v2.Shuffle(n, swap)], the Go library's Fisher-Yates loop
    [for i := n - 1; i > 0; i-- { j := int(r.uint64n(uint64(i + 1))); swap(i, j) }].
    The generator is an input: [draws] lists the values [r.uint64n] returns,
    in call order. [None] when a swap panics or [draws] is shorter than the
    calls made. *)
Fixpoint Shuffle_loop {S : Type} (i : nat) (draws : list nat)
    (swap : nat → nat → S → option S) (s : S) : option S :=
  match i with
  | 0 => Some s
  | S i' =>
    match draws with
    | [] => None
    | j :: draws' => s' ← swap i j s; Shuffle_loop i' draws' swap s'
    end
  end.

Definition rand_Shuffle {S : Type} (draws : list nat) (n : nat)
    (swap : nat → nat → S → option S) (s : S) : option S :=
  Shuffle_loop (n - 1) draws swap s.

(** What [r.uint64n] guarantees over one [Shuffle] of [n] elements: one
    value per iteration [i = n-1, ..., 1], each in [[0, i]]. *)
Fixpoint draws_in_range (i : nat) (draws : list nat) : bool :=
  match i, draws with
  | 0, [] => true
  | S i', j :: draws' => Nat.leb j i && draws_in_range i' draws'
  | _, _ => false
  end.

Definition valid_draws (n : nat) (draws : list nat) : bool :=
  draws_in_range (n - 1) draws.

(** [func shuffle(options []string)]; the slice updated in place is the
    result. *)
Definition shuffle (draws : list nat) (options : list string)
  : option (list string) :=
  rand_Shuffle draws (length options) swap options.

(** [shuffle] run on the positions [0, ..., n-1] instead of the options: the
    rearrangement of positions that the draws select. *)
Definition shuffle_positions (draws : list nat) (n : nat) : option (list nat) :=
  rand_Shuffle draws n swap (seq 0 n).

Section App.

(** Kept abstract: the [context.Context] and [Result] types, the [Store]
    implementation, the state of the world the handlers act on, and the
    bodies of the six handler methods. *)
Context {context Result Store World : Type}.
Variable Result_zero : Result.

Record request : Type := mkRequest {
  Context_ : context;
  Operation : operation;
  Operand : string;
  Args : list string;
}.

Record App : Type := mkApp {
  App_name : string;
  App_store : Store;
  App_shuffle : list nat → list string → option (list string);
}.

Definition NewApp (name : string) (store : Store) : App :=
  {| App_name := name; App_store := store; App_shuffle := shuffle |}.

Definition newRequest (a : App) (ctx : context) (args : list string)
  : request * option Error :=
  let '(op, operand, opargs, err) := parseArgs args in
  ({| Context_ := ctx; Operation := op; Operand := operand; Args := opargs |},
   err).

(** [type appHandler func(App, request) (Result, error)]; a handler reads
    and writes the store, so it is a function on the world as well. *)
Definition appHandler : Type :=
  App → request → World → (Result * option Error) * World.

Variables App_showHelp App_makeSelection App_listGroups
          App_showGroup App_saveGroup App_deleteGroup : appHandler.

(** [var appHandlers = map[operation]appHandler{...}] *)
Definition appHandlers : gmap operation appHandler :=
  list_to_map
    [ (showHelp, App_showHelp);
      (makeSelection, App_makeSelection);
      (listGroups, App_listGroups);
      (showGroup, App_showGroup);
      (saveGroup, App_saveGroup);
      (deleteGroup, App_deleteGroup) ].

(** The entries of the literal, read off as a function, to compare the
    map with. *)
Definition handler_of (op : operation) : appHandler :=
  match op with
  | showHelp => App_showHelp
  | makeSelection => App_makeSelection
  | listGroups => App_listGroups
  | showGroup => App_showGroup
  | saveGroup => App_saveGroup
  | deleteGroup => App_deleteGroup
  end.

(** [App.Main]. Indexing the map with an absent key gives a nil function,
    and calling it panics: that is the outer [None]. The tracing span does
    not influence the results and is left out. *)
Definition Main (a : App) (ctx : context) (args : list string) (w : World)
  : option ((Result * option Error) * World) :=
  let '(request, err) := newRequest a ctx args in
  match err with
  | Some e => Some ((Result_zero, Some e), w)
  | None =>
    match appHandlers !! Operation request with
    | Some handler => Some (handler a request w)
    | None => None
    end
  end.

End App.

End Randomizer.

(** ** internal/slack/token.go *)

Module Slack.

Local Open Scope Z_scope.

(** Go [error] values, as far as this file builds and inspects them:
    the two errors [ctx.Err()] can give, [errors.New], and [fmt.Errorf]
    with a [%w] verb after a fixed prefix. *)
Inductive error : Type :=
  | context_Canceled
  | context_DeadlineExceeded
  | errors_New (msg : string)
  | fmt_Errorf_w (prefix : string) (err : error).

(** [errors.Unwrap]: the error that a [%w] verb wrapped, if any. *)
Definition errors_Unwrap (err : error) : option error :=
  match err with
  | fmt_Errorf_w _ e => Some e
  | _ => None
  end.

Definition is_cancellation (e : error) : bool :=
  match e with
  | context_Canceled | context_DeadlineExceeded => true
  | _ => false
  end.

(** [time.Duration] counts nanoseconds; [time.Time] is an instant on the
    same scale. The zero [time.Time] is the instant 0. *)
Definition Duration : Type := Z.
Definition Time : Type := Z.
Definition time_Minute : Duration := 60 * 1000000000.
Definition time_zero : Time := 0.
Definition Before (t u : Time) : bool := t <? u.
Definition Add (t : Time) (d : Duration) : Time := t + d.

Definition DefaultAWSParameterTTL : Duration := 2 * time_Minute.

(** A [TokenProvider] is a closure in Go; here it is named by the
    constructor function that made it and that function's arguments. The
    behaviour of each is given below ([StaticToken_call],
    [AWSParameter_call]). *)
Inductive TokenProvider : Type :=
  | StaticToken (token : string)
  | AWSParameter (name : string) (ttl : Duration).

Section FromEnv.

(** [time.ParseDuration], from Go's library. *)
Variable time_ParseDuration : string → Duration + error.

(** The process environment; [os.LookupEnv] is the lookup. *)
Definition os_LookupEnv (env : gmap string string) (key : string)
  : option string := env !! key.

Definition ssmTTLFromEnv (env : gmap string string) : Duration + error :=
  match os_LookupEnv env "SLACK_TOKEN_SSM_TTL" with
  | None => inl DefaultAWSParameterTTL
  | Some ttlEnv =>
    match time_ParseDuration ttlEnv with
    | inr err =>
      inr (fmt_Errorf_w "SLACK_TOKEN_SSM_TTL is not a valid Go duration: " err)
    | inl ttl => inl ttl
    end
  end.

Definition TokenProviderFromEnv (env : gmap string string)
  : TokenProvider + error :=
  match os_LookupEnv env "SLACK_TOKEN" with
  | Some token => inl (StaticToken token)
  | None =>
    match os_LookupEnv env "SLACK_TOKEN_SSM_NAME" with
    | Some ssmName =>
      match ssmTTLFromEnv env with
      | inr err => inr err
      | inl ttl => inl (AWSParameter ssmName ttl)
      end
    | None =>
      inr (errors_New "missing SLACK_TOKEN or SLACK_TOKEN_SSM_NAME in environment")
    end
  end.

End FromEnv.

(** *** The provider closures *)

(** What a call gives back: the two results of the function, or a panic
    that unwinds through it. *)
Inductive outcome : Type :=
  | Return (token : string) (err : option error)
  | Panic.

Definition StaticToken_call (token : string) : outcome := Return token None.

(** The state [AWSParameter] captures: the one-slot channel [lock] ([true]
    when its buffer holds an element) and the variables [token] and
    [expiry]. *)
Record captured : Type := mkCaptured {
  lock : bool;
  token : string;
  expiry : Time;
}.

(** The captured state right after [AWSParameter] returns the closure. *)
Definition captured_init : captured :=
  {| lock := false; token := EmptyString; expiry := time_zero |}.

Definition set_lock (b : bool) (st : captured) : captured :=
  {| lock := b; token := token st; expiry := expiry st |}.
Definition set_token (v : string) (st : captured) : captured :=
  {| lock := lock st; token := v; expiry := expiry st |}.
Definition set_expiry (t : Time) (st : captured) : captured :=
  {| lock := lock st; token := token st; expiry := t |}.

(** The two cases of the [select] statement. *)
Inductive select_case : Type :=
  | case_send   (* case lock <- struct{}{} *)
  | case_done.  (* case <-ctx.Done() *)

(** Go's [select]: a case can proceed when its channel operation can; with
    exactly one such case it is taken, with both the runtime picks one of
    them (its pick is the input [pick]), with none the goroutine blocks
    ([None]). [ctx_err] is [ctx.Err()]: [None] until the context is
    cancelled or times out, which is also when [ctx.Done()] is closed. *)
Definition select (lock_full : bool) (ctx_err : option error)
    (pick : select_case) : option select_case :=
  match lock_full, ctx_err with
  | false, None => Some case_send
  | true, Some _ => Some case_done
  | false, Some _ => Some pick
  | true, None => None
  end.

(** [ssm.GetParameterOutput] and [types.Parameter]: pointers that may be
    nil. *)
Record ssm_Parameter : Type := mkParameter { p_Value : option string }.
Record ssm_GetParameterOutput : Type :=
  mkOutput { out_Parameter : option ssm_Parameter }.

(** [awsconfig.New], for a call that returns: the error of
    [config.LoadDefaultConfig], wrapped. The transport it picks does not
    show in its results. Building the embedded-roots transport, which it
    does when [AWS_CLIENT_EMBEDDED_TLS_ROOTS] is 1, can panic instead of
    returning (the type assertion on [http.DefaultTransport], the panic in
    [loadEmbeddedCertPool]); such a call is not represented here, and with
    it no panic of the configuration step. *)
Definition awsconfig_New (load : option error) : option error :=
  match load with
  | Some err => Some (fmt_Errorf_w "loading AWS config: " err)
  | None => None
  end.

(** The calls a run makes to the outside. *)
Inductive remote_call : Type :=
  | call_LoadDefaultConfig
  | call_GetParameter (name : string).

(** Everything one call of the closure takes from outside itself. *)
Record oracle : Type := mkOracle {
  o_ctx_err : option error;           (* ctx.Err() at the select *)
  o_pick : select_case;               (* the runtime's pick at the select *)
  o_now_check : Time;                 (* time.Now() at line 94 *)
  o_load : option error;              (* config.LoadDefaultConfig's error *)
  o_get : ssm_GetParameterOutput + error;  (* GetParameter's results *)
  o_now_store : Time;                 (* time.Now() at line 114 *)
}.

(** Lines 94-115, run with the lock held. *)
Definition critical (name : string) (ttl : Duration) (o : oracle)
    (st : captured) : outcome * captured * list remote_call :=
  if Before (o_now_check o) (expiry st) then
    (Return (token st) None, st, [])
  else
    match awsconfig_New (o_load o) with
    | Some err => (Return EmptyString (Some err), st, [call_LoadDefaultConfig])
    | None =>
      let calls := [call_LoadDefaultConfig; call_GetParameter name] in
      match o_get o with
      | inr err =>
        (Return EmptyString
           (Some (fmt_Errorf_w "loading Slack token parameter: " err)),
         st, calls)
      | inl output =>
        match out_Parameter output ≫= p_Value with
        | None => (Panic, st, calls)
        | Some v =>
          let st1 := set_token v st in
          let st2 := set_expiry (Add (o_now_store o) ttl) st1 in
          (Return (token st2) None, st2, calls)
        end
      end
    end.

(** One call of the closure that [AWSParameter(name, ttl)] returns, run without
    interference from other goroutines once it is past the [select].
    [None]: the call blocks in the [select]. The deferred function gives
    the lock back on the way out of lines 94-115, also on a panic. The
    spans are left out, and with them the read of [expiry] that the
    deferred function makes, after it has given the lock back, for a span
    attribute. *)
Definition AWSParameter_call (name : string) (ttl : Duration) (o : oracle)
    (st : captured) : option (outcome * captured * list remote_call) :=
  match select (lock st) (o_ctx_err o) (o_pick o) with
  | None => None
  | Some case_done =>
    Some (Return EmptyString (o_ctx_err o), st, [])
  | Some case_send =>
    let '(r, st', calls) := critical name ttl o (set_lock true st) in
    Some (r, set_lock false st', calls)
  end.

(** *** Goroutines calling the closure concurrently

    Each goroutine runs the closure's body; [pc] is where it stands. The
    steps are the points where the body touches the captured state or the
    outside world. *)
Inductive pc : Type :=
  | at_select                 (* line 83, before the select *)
  | at_check                  (* line 94, lock taken *)
  | at_config                 (* line 100 *)
  | at_get                    (* line 105 *)
  | at_expiry                 (* line 114, token written *)
  | at_defer (r : outcome)    (* lines 85-89, the deferred function *)
  | finished (r : outcome).

(** What the outside supplies to a step. *)
Inductive event : Type :=
  | ev_select (ctx_err : option error) (pick : select_case)
  | ev_now (t : Time)
  | ev_load (err : option error)
  | ev_get (r : ssm_GetParameterOutput + error)
  | ev_defer.

(** One step of one goroutine. [None]: the goroutine cannot take this step
    now (it is blocked on the channel, or the event is not the one its next
    statement consumes). *)
Definition thread_step (ttl : Duration) (ev : event) (st : captured) (p : pc)
  : option (captured * pc) :=
  match p, ev with
  | at_select, ev_select ctx_err pick =>
    match select (lock st) ctx_err pick with
    | None => None
    | Some case_done => Some (st, finished (Return EmptyString ctx_err))
    | Some case_send => Some (set_lock true st, at_check)
    end
  | at_check, ev_now now =>
    if Before now (expiry st)
    then Some (st, at_defer (Return (token st) None))
    else Some (st, at_config)
  | at_config, ev_load load =>
    match awsconfig_New load with
    | Some err => Some (st, at_defer (Return EmptyString (Some err)))
    | None => Some (st, at_get)
    end
  | at_get, ev_get r =>
    match r with
    | inr err =>
      Some (st, at_defer (Return EmptyString
                  (Some (fmt_Errorf_w "loading Slack token parameter: " err))))
    | inl output =>
      match out_Parameter output ≫= p_Value with
      | None => Some (st, at_defer Panic)
      | Some v => Some (set_token v st, at_expiry)
      end
    end
  | at_expiry, ev_now now =>
    let st' := set_expiry (Add now ttl) st in
    Some (st', at_defer (Return (token st') None))
  | at_defer r, ev_defer =>
    (* <-lock: proceeds only if the buffer holds an element *)
    if lock st then Some (set_lock false st, finished r) else None
  | _, _ => None
  end.

(** The captured state and the goroutines that share it. *)
Record system : Type := mkSystem {
  sys_captured : captured;
  sys_threads : list pc;
}.

(** [n] goroutines about to call the closure. *)
Definition system_init (st : captured) (n : nat) : system :=
  {| sys_captured := st; sys_threads := replicate n at_select |}.

(** The scheduler runs goroutine [tid] for one step. *)
Definition system_step (ttl : Duration) (l : nat * event) (s : system)
  : option system :=
  let '(tid, ev) := l in
  p ← sys_threads s !! tid;
  '(st', p') ← thread_step ttl ev (sys_captured s) p;
  Some {| sys_captured := st'; sys_threads := <[tid := p']> (sys_threads s) |}.

(** A run: the steps of a schedule, in order. [None] if some step of the
    schedule cannot be taken. *)
Fixpoint system_run (ttl : Duration) (sched : list (nat * event)) (s : system)
  : option system :=
  match sched with
  | [] => Some s
  | l :: sched' => s' ← system_step ttl l s; system_run ttl sched' s'
  end.

(** A goroutine is inside the critical section from the moment its send on
    [lock] succeeds until its deferred receive. *)
Definition inside (p : pc) : bool :=
  match p with
  | at_check | at_config | at_get | at_expiry | at_defer _ => true
  | at_select | finished _ => false
  end.

Definition count_inside (ps : list pc) : nat :=
  length (filter (λ p, inside p = true) ps).

(** The number of [GetParameter] calls a schedule makes. *)
Definition is_get (l : nat * event) : bool :=
  match l.2 with ev_get _ => true | _ => false end.

Definition count_fetches (sched : list (nat * event)) : nat :=
  length (filter (λ l, is_get l = true) sched).

(** The events a goroutine can consume from one call's oracle, in the order
    of the statements that consume them. *)
Definition oracle_events (o : oracle) : list event :=
  [ ev_select (o_ctx_err o) (o_pick o);
    ev_now (o_now_check o);
    ev_load (o_load o);
    ev_get (o_get o);
    ev_now (o_now_store o);
    ev_defer ].

Definition is_GetParameter (c : remote_call) : bool :=
  match c with call_GetParameter _ => true | call_LoadDefaultConfig => false end.

(** The lock is held exactly when one goroutine is inside. *)
Definition lock_matches (s : system) : Prop :=
  count_inside (sys_threads s)
  = if lock (sys_captured s) then 1%nat else 0%nat.

(** The outside behaves over a window of time that starts at [t0]: every
    clock reading falls in [[t0, t0 + ttl)], the configuration loads, and
    [GetParameter] answers with a value. *)
Definition good_event (t0 : Time) (ttl : Duration) (ev : event) : bool :=
  match ev with
  | ev_now t => (t0 <=? t) && (t <? t0 + ttl)
  | ev_load None => true
  | ev_load (Some _) => false
  | ev_get (inl output) =>
    match out_Parameter output ≫= p_Value with Some _ => true | None => false end
  | ev_get (inr _) => false
  | ev_select _ _ | ev_defer => true
  end.

Definition good_schedule (t0 : Time) (ttl : Duration)
    (sched : list (nat * event)) : bool :=
  forallb (λ l, good_event t0 ttl l.2) sched.

(** Where goroutines can stand before any fetch has answered, while the
    fetched value is being stored, and once it is cached. A goroutine that
    left through the cancellation case has an error in its result. *)
Definition before_fetch (p : pc) : bool :=
  match p with
  | at_select | at_check | at_config | at_get => true
  | finished (Return _ (Some _)) => true
  | _ => false
  end.

Definition while_storing (p : pc) : bool :=
  match p with
  | at_select | at_expiry => true
  | finished (Return _ (Some _)) => true
  | _ => false
  end.

Definition after_store (p : pc) : bool :=
  match p with
  | at_select | at_check => true
  | at_defer (Return _ None) => true
  | finished (Return _ _) => true
  | _ => false
  end.

(** The three phases of a run in which the outside behaves, with [k] the
    number of [GetParameter] calls made so far. *)
Definition single_flight_phase (t0 : Time) (ttl : Duration) (k : nat)
    (s : system) : Prop :=
  (k = 0%nat
   ∧ expiry (sys_captured s) ≤ t0
   ∧ Forall (λ p, before_fetch p = true) (sys_threads s))
  ∨ (k = 1%nat
     ∧ lock (sys_captured s) = true
     ∧ Forall (λ p, while_storing p = true) (sys_threads s))
  ∨ (k = 1%nat
     ∧ t0 + ttl ≤ expiry (sys_captured s)
     ∧ Forall (λ p, after_store p = true) (sys_threads s)).




(** The kind of event the next statement of a goroutine inside takes. *)
Definition awaits (p : pc) (ev : event) : bool :=
  match p, ev with
  | at_check, ev_now _ | at_expiry, ev_now _ => true
  | at_config, ev_load _ => true
  | at_get, ev_get _ => true
  | at_defer _, ev_defer => true
  | _, _ => false
  end.

(** An event that is not the cancellation of a context. *)
Definition live_event (ev : event) : bool :=
  match ev with
  | ev_select (Some _) _ => false
  | _ => true
  end.

(** The statements a goroutine still has before it on its longest way to
    the end of the call. *)
Definition steps_left (p : pc) : nat :=
  match p with
  | at_select => 6
  | at_check => 5
  | at_config => 4
  | at_get => 3
  | at_expiry => 2
  | at_defer _ => 1
  | finished _ => 0
  end.

(** 1 while the goroutine may still come to call [GetParameter]. *)
Definition fetch_ahead (p : pc) : nat :=
  match p with
  | at_select | at_check | at_config | at_get => 1
  | at_expiry | at_defer _ | finished _ => 0
  end.

(** A goroutine on its way out with a token and no error carries [tok]. *)
Definition carries (tok : string) (p : pc) : Prop :=
  match p with
  | at_defer (Return t None) | finished (Return t None) => t = tok
  | _ => True
  end.

End Slack.

(** * Properties of the argument parser and the dispatcher *)

Module RandomizerSpec.
Import Randomizer.

Lemma parseArgs_cons_other (arg0 : string) (rest : list string) :
  arg0 ∉ known_flags →
  ¬ (arg0 = "help" ∧ rest = []) →
  parseArgs (arg0 :: rest) = (makeSelection, EmptyString, arg0 :: rest, None).
Proof.
  intros Hflag Hhelp. unfold known_flags in Hflag.
  rewrite !not_elem_of_cons in Hflag.
  destruct Hflag as (H1 & H2 & H3 & H4 & H5 & _).
  unfold parseArgs.
  rewrite (bool_decide_eq_false_2 _ H1), (bool_decide_eq_false_2 _ H2),
    (bool_decide_eq_false_2 _ H3), (bool_decide_eq_false_2 _ H4),
    (bool_decide_eq_false_2 _ H5).
  destruct rest as [|x rest]; simpl.
  - rewrite bool_decide_eq_false_2; [reflexivity|]. intros ->. by apply Hhelp.
  - reflexivity.
Qed.

(** C5. [parseArgs] answers with the help operation, an empty operand and
    the token list as it came, for the empty list, for every list that
    starts with the flag [/help], and for the one-token list [help]; a list
    that starts with [help] and goes on is a selection over the whole
    list. *)
Theorem parseArgs_help :
  parseArgs [] = (showHelp, EmptyString, [], None)
  ∧ (∀ rest : list string,
       parseArgs ("/help" :: rest)
       = (showHelp, EmptyString, "/help" :: rest, None))
  ∧ parseArgs ["help"] = (showHelp, EmptyString, ["help"], None)
  ∧ (∀ (x : string) (rest : list string),
       parseArgs ("help" :: x :: rest)
       = (makeSelection, EmptyString, "help" :: x :: rest, None)).
Proof.
  split; [reflexivity|].
  split; [intros rest; reflexivity|].
  split; [reflexivity|].
  intros x rest. apply parseArgs_cons_other.
  - unfold known_flags. rewrite !not_elem_of_cons.
    repeat (split; [discriminate|]). apply not_elem_of_nil.
  - intros [_ ?]. discriminate.
Qed.

Section Dispatch.

Context {context Result Store World : Type}.
Variable Result_zero : Result.
Variables hHelp hSelect hList hShow hSave hDelete
  : @appHandler context Result Store World.

Local Abbreviation table :=
  (appHandlers hHelp hSelect hList hShow hSave hDelete).
Local Abbreviation handler_of :=
  (handler_of hHelp hSelect hList hShow hSave hDelete).
Local Abbreviation run_Main :=
  (Main Result_zero hHelp hSelect hList hShow hSave hDelete).

Lemma appHandlers_lookup (op : operation) :
  table !! op = Some (handler_of op).
Proof. destruct op; reflexivity. Qed.

Lemma Main_parse_error (a : App) (ctx : context) (args : list string)
    (w : World) (op : operation) (operand : string) (opargs : list string)
    (e : Error) :
  parseArgs args = (op, operand, opargs, Some e) →
  run_Main a ctx args w = Some ((Result_zero, Some e), w).
Proof. intros H. unfold Main, newRequest. rewrite H. reflexivity. Qed.

Lemma Main_parse_ok (a : App) (ctx : context) (args : list string)
    (w : World) (op : operation) (operand : string) (opargs : list string) :
  parseArgs args = (op, operand, opargs, None) →
  run_Main a ctx args w
  = Some (handler_of op a (mkRequest ctx op operand opargs) w).
Proof.
  intros H. unfold Main, newRequest. rewrite H. cbn.
  rewrite appHandlers_lookup. reflexivity.
Qed.

(** C6. For each of the flags [/show], [/save] and [/delete]: with a second
    token, [parseArgs] gives the flag's operation, that token as operand and
    the tokens after it as arguments, without error; alone, it gives the
    missing-operand error, whose help text and cause both carry the flag,
    quoted, and [Main] then returns that error with the zero [Result] and
    leaves the world as it was, whatever the handlers are. *)
Theorem parseArgs_operand_flags (flag : string) (op : operation) :
  (flag, op) ∈ operand_flags →
  (∀ (operand : string) (rest : list string),
     parseArgs (flag :: operand :: rest) = (op, operand, rest, None))
  ∧ parseArgs [flag] = (op, EmptyString, [], Some (MissingOperand flag))
  ∧ helpText (MissingOperand flag)
    = "Whoops, " ++ String Fmt.dquote flag ++ String Fmt.dquote " requires an argument!"
  ∧ cause (MissingOperand flag)
    = String Fmt.dquote flag ++ String Fmt.dquote " flag requires an argument"
  ∧ Fmt.contains flag (helpText (MissingOperand flag)) = true
  ∧ Fmt.contains flag (cause (MissingOperand flag)) = true
  ∧ (∀ (a : App) (ctx : context) (w : World),
       run_Main a ctx [flag] w
       = Some ((Result_zero, Some (MissingOperand flag)), w)).
Proof.
  unfold operand_flags. rewrite !elem_of_cons, elem_of_nil.
  intros [H|[H|[H|[]]]]; injection H as -> ->;
    (split; [intros operand rest; reflexivity|]);
    (split; [reflexivity|]);
    (split; [reflexivity|]);
    (split; [reflexivity|]);
    (split; [reflexivity|]);
    (split; [reflexivity|]);
    intros a ctx w; eapply Main_parse_error; reflexivity.
Qed.

(** C7. A token list that is not empty, whose first token is none of the
    five flags, and that is not the single token [help], parses as a
    selection: empty operand, the whole list as arguments, no error. *)
Theorem parseArgs_select (args : list string) (arg0 : string)
    (rest : list string) :
  args = arg0 :: rest →
  arg0 ∉ known_flags →
  args ≠ ["help"] →
  parseArgs args = (makeSelection, EmptyString, args, None).
Proof.
  intros -> Hflag Hhelp. apply parseArgs_cons_other; [exact Hflag|].
  intros [-> ->]. by apply Hhelp.
Qed.

(** C8. The handler table has an entry for each of the six operations, the
    one the source's literal gives it, and no other entry; so whenever
    [parseArgs] reports no error [Main] finds the handler of the parsed
    operation and returns what it returns, and [Main] never reaches the
    call of a missing handler. *)
Theorem appHandlers_total :
  (∀ op : operation, table !! op = Some (handler_of op))
  ∧ size table = 6%nat
  ∧ (∀ (a : App) (ctx : context) (args : list string) (w : World),
       is_Some (run_Main a ctx args w))
  ∧ (∀ (a : App) (ctx : context) (args : list string) (w : World),
       (parseArgs args).2 = None →
       run_Main a ctx args w
       = Some (handler_of (parseArgs args).1.1.1 a
                 (newRequest a ctx args).1 w)).
Proof.
  split; [exact appHandlers_lookup|].
  split; [reflexivity|].
  split.
  - intros a ctx args w.
    destruct (parseArgs args) as [[[op operand] opargs] [e|]] eqn:H.
    + erewrite Main_parse_error by exact H. eauto.
    + erewrite Main_parse_ok by exact H. eauto.
  - intros a ctx args w Herr.
    destruct (parseArgs args) as [[[op operand] opargs] err] eqn:H.
    simpl in Herr. subst err.
    erewrite Main_parse_ok by exact H.
    unfold newRequest. rewrite H. reflexivity.
Qed.

End Dispatch.

(** The three theorems above at concrete inputs: the world is a counter
    that every handler bumps, the result is the handler's number. *)
Lemma parseArgs_operand_flags_witness :
  ("/show", showGroup) ∈ operand_flags
  ∧ parseArgs ["/show"; "g"; "a"; "b"] = (showGroup, "g", ["a"; "b"], None)
  ∧ parseArgs ["/show"] = (showGroup, EmptyString, [], Some (MissingOperand "/show"))
  ∧ helpText (MissingOperand "/show")
    = "Whoops, " ++ String Fmt.dquote "/show" ++ String Fmt.dquote " requires an argument!"
  ∧ Main (context := unit) (Store := unit) 0%nat
      (λ _ _ w, ((1%nat, None), S w)) (λ _ _ w, ((2%nat, None), S w))
      (λ _ _ w, ((3%nat, None), S w)) (λ _ _ w, ((4%nat, None), S w))
      (λ _ _ w, ((5%nat, None), S w)) (λ _ _ w, ((6%nat, None), S w))
      (NewApp "randomizer" tt) tt ["/show"] 7%nat
    = Some ((0%nat, Some (MissingOperand "/show")), 7%nat).
Proof.
  assert (Hin : ("/show", showGroup) ∈ operand_flags)
    by apply list_elem_of_here.
  split; [exact Hin|].
  destruct (parseArgs_operand_flags (context := unit) (Store := unit) 0%nat
              (λ _ _ w, ((1%nat, None), S w)) (λ _ _ w, ((2%nat, None), S w))
              (λ _ _ w, ((3%nat, None), S w)) (λ _ _ w, ((4%nat, None), S w))
              (λ _ _ w, ((5%nat, None), S w)) (λ _ _ w, ((6%nat, None), S w))
              "/show" showGroup Hin)
    as (Hok & Herr & Hhelp & _ & _ & _ & Hmain).
  split; [apply Hok|].
  split; [exact Herr|].
  split; [exact Hhelp|].
  apply Hmain.
Defined.

Lemma parseArgs_select_witness :
  parseArgs ["somegroup"; "x"; "y"]
  = (makeSelection, EmptyString, ["somegroup"; "x"; "y"], None)
  ∧ parseArgs ["/frobnicate"]
    = (makeSelection, EmptyString, ["/frobnicate"], None).
Proof.
  split.
  - apply (parseArgs_select _ "somegroup" ["x"; "y"]).
    + reflexivity.
    + unfold known_flags. rewrite !not_elem_of_cons.
      repeat (split; [discriminate|]). apply not_elem_of_nil.
    + discriminate.
  - apply (parseArgs_select _ "/frobnicate" []).
    + reflexivity.
    + unfold known_flags. rewrite !not_elem_of_cons.
      repeat (split; [discriminate|]). apply not_elem_of_nil.
    + discriminate.
Defined.

Lemma appHandlers_total_witness :
  Main (context := unit) (Store := unit) 0%nat
    (λ _ _ w, ((1%nat, None), S w)) (λ _ _ w, ((2%nat, None), S w))
    (λ _ _ w, ((3%nat, None), S w)) (λ _ _ w, ((4%nat, None), S w))
    (λ _ _ w, ((5%nat, None), S w)) (λ _ _ w, ((6%nat, None), S w))
    (NewApp "randomizer" tt) tt ["/delete"; "g"] 7%nat
  = Some ((6%nat, None), 8%nat).
Proof.
  destruct (appHandlers_total (context := unit) (Store := unit) 0%nat
              (λ _ _ w, ((1%nat, None), S w)) (λ _ _ w, ((2%nat, None), S w))
              (λ _ _ w, ((3%nat, None), S w)) (λ _ _ w, ((4%nat, None), S w))
              (λ _ _ w, ((5%nat, None), S w)) (λ _ _ w, ((6%nat, None), S w)))
    as (_ & _ & _ & Hok).
  rewrite Hok; reflexivity.
Defined.

(** The parser on the inputs the specification lists. *)
Example parseArgs_list :
  parseArgs ["/list"] = (listGroups, EmptyString, ["/list"], None).
Proof. reflexivity. Qed.

Example parseArgs_show_group :
  parseArgs ["/show"; "g"; "a"; "b"] = (showGroup, "g", ["a"; "b"], None).
Proof. reflexivity. Qed.

Example parseArgs_show_alone :
  (parseArgs ["/show"]).2
  = Some {| cause := String Fmt.dquote "/show" ++ String Fmt.dquote " flag requires an argument";
            helpText := "Whoops, " ++ String Fmt.dquote "/show" ++ String Fmt.dquote " requires an argument!" |}.
Proof. reflexivity. Qed.

Example parseArgs_help_then_more :
  parseArgs ["help"; "x"] = (makeSelection, EmptyString, ["help"; "x"], None).
Proof. reflexivity. Qed.

(** *** The shuffle *)

Example shuffle_three :
  shuffle [0; 1]%nat ["a"; "b"; "c"] = Some ["c"; "b"; "a"]
  ∧ shuffle [2; 0]%nat ["a"; "b"; "c"] = Some ["b"; "a"; "c"]
  ∧ shuffle [3; 0]%nat ["a"; "b"; "c"] = None
  ∧ valid_draws 3 [3; 0]%nat = false.
Proof. repeat split; reflexivity. Qed.

Section Shuffle.

Context {A : Type}.
Implicit Types (l pre suf target : list A) (draws : list nat) (i j n : nat).
Local Open Scope nat_scope.
Local Open Scope list_scope.

Lemma swap_Some i j l :
  i < length l → j < length l →
  ∃ l', swap i j l = Some l' ∧ l' ≡ₚ l ∧ length l' = length l.
Proof.
  intros Hi Hj.
  destruct (lookup_lt_is_Some_2 l i Hi) as [oi Hoi].
  destruct (lookup_lt_is_Some_2 l j Hj) as [oj Hoj].
  exists (<[j := oi]> (<[i := oj]> l)). unfold swap. rewrite Hoi, Hoj. simpl.
  split; [reflexivity|]. split.
  - by apply Permutation_insert_swap.
  - by rewrite !length_insert.
Qed.

Lemma swap_length i j l l' : swap i j l = Some l' → length l' = length l.
Proof.
  unfold swap. destruct (l !! i) as [oi|]; [|discriminate].
  destruct (l !! j) as [oj|]; [|discriminate]. simpl.
  intros [= <-]. by rewrite !length_insert.
Qed.

Lemma swap_app i j pre suf :
  i < length pre → j < length pre →
  swap i j (pre ++ suf) = (λ x : list A, (x ++ suf)%list) <$> swap i j pre.
Proof.
  intros Hi Hj. unfold swap. rewrite !lookup_app_l by assumption.
  destruct (pre !! i) as [oi|]; [|reflexivity].
  destruct (pre !! j) as [oj|]; [|reflexivity]. simpl. f_equal.
  rewrite (insert_app_l pre suf i oj) by assumption.
  rewrite insert_app_l by (rewrite length_insert; assumption). reflexivity.
Qed.

(** The swap of the last position with position [j]: the element found at
    [j] goes last. *)
Lemma swap_last pre z j :
  j ≤ length pre →
  ∃ pre1 y,
    swap (length pre) j (pre ++ [z]) = Some (pre1 ++ [y])
    ∧ (pre ++ [z]) !! j = Some y
    ∧ length pre1 = length pre.
Proof.
  intros Hj. unfold swap.
  rewrite (list_lookup_middle pre [] z (length pre)) by reflexivity. simpl.
  destruct (decide (j = length pre)) as [->|Hne].
  - exists pre, z.
    rewrite (list_lookup_middle pre [] z (length pre)) by reflexivity. simpl.
    split; [|split; reflexivity]. f_equal.
    rewrite list_insert_insert_eq. apply list_insert_id.
    by apply list_lookup_middle.
  - assert (j < length pre) as Hlt by lia.
    destruct (lookup_lt_is_Some_2 pre j Hlt) as [y Hy].
    exists (<[j := z]> pre), y.
    rewrite (lookup_app_l_Some _ _ _ _ Hy). simpl.
    split; [|split; [reflexivity|by rewrite length_insert]]. f_equal.
    rewrite (insert_app_r_alt pre [z] (length pre) y) by lia.
    rewrite Nat.sub_diag. simpl. by rewrite insert_app_l.
Qed.

Lemma swap_Permutation i j l l' : swap i j l = Some l' → l' ≡ₚ l.
Proof.
  unfold swap. destruct (l !! i) as [oi|] eqn:Hi; [|discriminate].
  destruct (l !! j) as [oj|] eqn:Hj; [|discriminate]. simpl.
  intros [= <-]. by apply Permutation_insert_swap.
Qed.

(** With draws in range the loop runs to the end, and what it returns is a
    rearrangement of what it was given. *)
Lemma Shuffle_loop_Permutation i draws l :
  draws_in_range i draws = true → i ≤ pred (length l) →
  ∃ l', Shuffle_loop i draws swap l = Some l' ∧ l' ≡ₚ l.
Proof.
  revert draws l. induction i as [|i IH]; intros draws l Hv Hi.
  - exists l. split; reflexivity.
  - destruct draws as [|j draws]; [discriminate|]. simpl in Hv.
    apply andb_true_iff in Hv as [Hj Hv]. apply Nat.leb_le in Hj.
    destruct (swap_Some (S i) j l) as (l1 & Hs & Hp & Hlen); [lia|lia|].
    destruct (IH draws l1 Hv) as (l' & Hl' & Hp'); [lia|].
    exists l'. simpl. rewrite Hs. simpl. split; [exact Hl'|].
    by rewrite Hp'.
Qed.

(** The loop started at index [i] leaves everything after position [i]
    alone. *)
Lemma Shuffle_loop_app i draws pre suf :
  draws_in_range i draws = true → i < length pre →
  Shuffle_loop i draws swap (pre ++ suf)
  = (λ x : list A, (x ++ suf)%list) <$> Shuffle_loop i draws swap pre.
Proof.
  revert draws pre. induction i as [|i IH]; intros draws pre Hv Hi.
  - reflexivity.
  - destruct draws as [|j draws]; [discriminate|]. simpl in Hv.
    apply andb_true_iff in Hv as [Hj Hv]. apply Nat.leb_le in Hj. simpl.
    rewrite swap_app by lia.
    destruct (swap (S i) j pre) as [pre1|] eqn:Hs; [|reflexivity]. simpl.
    apply IH; [exact Hv|]. rewrite (swap_length _ _ _ _ Hs). lia.
Qed.

Lemma snoc_inv l n :
  length l = S n → ∃ l' x, l = l' ++ [x] ∧ length l' = n.
Proof.
  intros Hlen. destruct l as [|a l] using rev_ind; [discriminate|].
  exists l, a. split; [reflexivity|].
  rewrite length_app in Hlen. simpl in Hlen. lia.
Qed.

Lemma draws_in_range_0 draws : draws_in_range 0 draws = true → draws = [].
Proof. destruct draws; [reflexivity|discriminate]. Qed.

(** Every rearrangement of a list without repetition is reached by one and
    only one sequence of draws in range. *)
Lemma Shuffle_loop_bijective n :
  ∀ pre z target,
    length pre = n → NoDup (pre ++ [z]) → target ≡ₚ pre ++ [z] →
    ∃ draws,
      draws_in_range n draws = true
      ∧ Shuffle_loop n draws swap (pre ++ [z]) = Some target
      ∧ ∀ draws', draws_in_range n draws' = true →
          Shuffle_loop n draws' swap (pre ++ [z]) = Some target →
          draws' = draws.
Proof.
  induction n as [|m IH]; intros pre z target Hlen Hnd Hperm.
  - destruct pre; [|discriminate]. simpl in *.
    apply Permutation_singleton_r in Hperm as ->.
    exists []. split; [reflexivity|]. split; [reflexivity|].
    intros draws' Hv _. by apply draws_in_range_0.
  - assert (length target = S (S m)) as Htl.
    { rewrite (Permutation_length Hperm), length_app. simpl. lia. }
    destruct (snoc_inv target (S m) Htl) as (tpre & y & -> & Htpre).
    assert (y ∈ pre ++ [z]) as Hy.
    { rewrite <- Hperm. apply elem_of_app. right. apply list_elem_of_here. }
    apply list_elem_of_lookup in Hy as [j Hj].
    assert (j ≤ length pre) as Hjle.
    { apply lookup_lt_Some in Hj. rewrite length_app in Hj. simpl in Hj. lia. }
    destruct (swap_last pre z j Hjle) as (pre1 & y' & Hswap & Hj' & Hlen1).
    assert (y' = y) as -> by congruence.
    assert (pre1 ++ [y] ≡ₚ pre ++ [z]) as Hp1
      by (eapply swap_Permutation; exact Hswap).
    assert (pre1 ≡ₚ tpre) as Hp2.
    { apply (Permutation_app_inv_r [y]). by rewrite Hp1, Hperm. }
    assert (NoDup pre1) as Hnd1.
    { rewrite <- Hp1 in Hnd. by apply NoDup_app in Hnd as (? & _). }
    destruct (snoc_inv pre1 m) as (p2 & z2 & -> & Hlen2); [lia|].
    destruct (IH p2 z2 tpre Hlen2 Hnd1 (symmetry Hp2))
      as (ds & Hv & Hrun & Huniq).
    exists (j :: ds). rewrite Hlen in *. split; [|split].
    + simpl. rewrite Hv, andb_true_r. apply Nat.leb_le. exact Hjle.
    + simpl. rewrite Hswap. simpl.
      rewrite Shuffle_loop_app by (try exact Hv; lia).
      rewrite Hrun. reflexivity.
    + intros draws' Hv' Hrun'.
      destruct draws' as [|j2 ds2]; [discriminate|]. simpl in Hv'.
      apply andb_true_iff in Hv' as [Hj2 Hv2]. apply Nat.leb_le in Hj2.
      rewrite <- Hlen in Hj2.
      destruct (swap_last pre z j2 Hj2) as (pre1b & y2 & Hswap2 & Hj2' & Hlen1b).
      rewrite Hlen in Hswap2. simpl in Hrun'. rewrite Hswap2 in Hrun'.
      simpl in Hrun'.
      rewrite Shuffle_loop_app in Hrun' by (try exact Hv2; lia).
      destruct (Shuffle_loop m ds2 swap pre1b) as [t2|] eqn:Hrun2;
        [|discriminate].
      simpl in Hrun'. injection Hrun' as Heq.
      apply app_inj_tail in Heq as [-> ->].
      assert (j2 = j) as -> by exact (NoDup_lookup (pre ++ [z]) j2 j y Hnd Hj2' Hj).
      rewrite Hswap in Hswap2. injection Hswap2 as Heq.
      apply app_inj_tail in Heq as [<- _].
      f_equal. apply Huniq; assumption.
Qed.

(** The swap and the loop commute with relabelling the elements. *)
Lemma swap_fmap {B : Type} (f : A → B) i j l :
  swap i j (f <$> l) = (λ x : list A, f <$> x) <$> swap i j l.
Proof.
  unfold swap. rewrite !list_lookup_fmap.
  destruct (l !! i) as [oi|]; [|reflexivity].
  destruct (l !! j) as [oj|]; [|reflexivity]. simpl.
  by rewrite !list_fmap_insert.
Qed.

Lemma Shuffle_loop_fmap {B : Type} (f : A → B) i draws l :
  Shuffle_loop i draws swap (f <$> l)
  = (λ x : list A, f <$> x) <$> Shuffle_loop i draws swap l.
Proof.
  revert draws l. induction i as [|i IH]; intros draws l; [reflexivity|].
  destruct draws as [|j draws]; [reflexivity|].
  cbn [Shuffle_loop]. rewrite swap_fmap.
  destruct (swap (S i) j l) as [l1|]; [|reflexivity]. simpl. apply IH.
Qed.

Lemma rand_Shuffle_Permutation l draws :
  valid_draws (length l) draws = true →
  ∃ out, rand_Shuffle draws (length l) swap l = Some out ∧ out ≡ₚ l.
Proof.
  intros Hv. apply Shuffle_loop_Permutation; [exact Hv|lia].
Qed.

Lemma rand_Shuffle_bijective l target :
  NoDup l → target ≡ₚ l →
  ∃ draws,
    valid_draws (length l) draws = true
    ∧ rand_Shuffle draws (length l) swap l = Some target
    ∧ ∀ draws', valid_draws (length l) draws' = true →
        rand_Shuffle draws' (length l) swap l = Some target →
        draws' = draws.
Proof.
  intros Hnd Hperm. unfold valid_draws, rand_Shuffle.
  destruct l as [|a l] using rev_ind.
  - apply Permutation_nil_r in Hperm as ->. exists []. simpl.
    split; [reflexivity|]. split; [reflexivity|].
    intros draws' Hv _. by apply draws_in_range_0.
  - rewrite length_app. simpl.
    replace (length l + 1 - 1) with (length l) by lia.
    by apply Shuffle_loop_bijective.
Qed.

End Shuffle.

Lemma options_from_positions (options : list string) :
  options
  = (λ i : nat, default EmptyString (options !! i)) <$> seq 0 (length options).
Proof.
  apply list_eq. intros i. rewrite list_lookup_fmap.
  destruct (decide (i < length options)%nat) as [Hlt|Hge].
  - rewrite lookup_seq_lt by assumption. simpl.
    destruct (lookup_lt_is_Some_2 options i Hlt) as [x ->]. reflexivity.
  - rewrite lookup_seq_ge by lia. simpl. apply lookup_ge_None. lia.
Qed.

(** C9. The shuffle that [NewApp] installs, run on any option list with
    draws in range, returns a rearrangement of the list: same length, same
    elements with the same multiplicities. It moves the options as the
    draws move the positions [0, ..., n-1], and every rearrangement of the
    positions comes from one and only one sequence of draws in range; so
    does every rearrangement of an option list without repetition. With
    each draw uniform over its range, as [rand.Shuffle] makes them, no
    rearrangement is more likely than another. *)
Theorem shuffle_uniform_permutation {Store : Type} (name : string)
    (store : Store) (options : list string) :
  (∀ draws : list nat,
     valid_draws (length options) draws = true →
     ∃ out : list string,
       App_shuffle (NewApp name store) draws options = Some out
       ∧ out ≡ₚ options
       ∧ length out = length options)
  ∧ (∀ draws : list nat,
       App_shuffle (NewApp name store) draws options
       = (λ positions : list nat,
            (λ i : nat, default EmptyString (options !! i)) <$> positions)
         <$> shuffle_positions draws (length options))
  ∧ (∀ positions : list nat,
       positions ≡ₚ seq 0 (length options) →
       ∃ draws : list nat,
         valid_draws (length options) draws = true
         ∧ shuffle_positions draws (length options) = Some positions
         ∧ ∀ draws' : list nat,
             valid_draws (length options) draws' = true →
             shuffle_positions draws' (length options) = Some positions →
             draws' = draws)
  ∧ (NoDup options →
     ∀ target : list string,
       target ≡ₚ options →
       ∃ draws : list nat,
         valid_draws (length options) draws = true
         ∧ App_shuffle (NewApp name store) draws options = Some target
         ∧ ∀ draws' : list nat,
             valid_draws (length options) draws' = true →
             App_shuffle (NewApp name store) draws' options = Some target →
             draws' = draws).
Proof.
  simpl. unfold shuffle, shuffle_positions.
  split; [|split; [|split]].
  - intros draws Hv.
    destruct (rand_Shuffle_Permutation options draws Hv) as (out & Hrun & Hp).
    exists out. split; [exact Hrun|]. split; [exact Hp|].
    by apply Permutation_length.
  - intros draws. rewrite (options_from_positions options) at 2.
    unfold rand_Shuffle. rewrite Shuffle_loop_fmap. reflexivity.
  - intros positions Hp.
    pose proof (rand_Shuffle_bijective (seq 0 (length options)) positions
                  (NoDup_seq 0 (length options)) Hp) as H.
    rewrite length_seq in H. exact H.
  - intros Hnd target Hp. by apply rand_Shuffle_bijective.
Qed.

Lemma shuffle_uniform_permutation_witness :
  (∃ out : list string,
     shuffle [0; 1]%nat ["a"; "b"; "c"] = Some out
     ∧ out ≡ₚ ["a"; "b"; "c"]
     ∧ length out = 3%nat)
  ∧ (∃ draws : list nat,
       valid_draws 3 draws = true
       ∧ shuffle draws ["a"; "b"; "c"] = Some ["b"; "c"; "a"]
       ∧ ∀ draws' : list nat,
           valid_draws 3 draws' = true →
           shuffle draws' ["a"; "b"; "c"] = Some ["b"; "c"; "a"] →
           draws' = draws).
Proof.
  destruct (shuffle_uniform_permutation "randomizer" tt ["a"; "b"; "c"])
    as (Hperm & _ & _ & Huniq).
  split.
  - apply (Hperm [0; 1]%nat). reflexivity.
  - apply Huniq.
    + apply (bool_decide_unpack _). vm_compute. reflexivity.
    + symmetry. apply (Permutation_cons_append ["b"; "c"] "a").
Defined.

End RandomizerSpec.

(** * Properties of the token providers *)

Module SlackSpec.
Import Slack.

Local Open Scope Z_scope.

(** C10. [TokenProviderFromEnv] looks at [SLACK_TOKEN] first: when it is
    set, to any value, the provider is the static one for that value,
    whatever else the environment holds. Otherwise, with
    [SLACK_TOKEN_SSM_NAME] set, the provider is the cached remote one for
    that name, whose TTL is the two-minute default when
    [SLACK_TOKEN_SSM_TTL] is unset and the parsed duration when it is set
    and parses; when it is set and does not parse, the result is an error
    that wraps the parser's. With neither of the first two set the result
    is an error. *)
Theorem TokenProviderFromEnv_precedence
    (time_ParseDuration : string → Duration + error)
    (env : gmap string string) :
  (∀ token : string,
     env !! "SLACK_TOKEN" = Some token →
     TokenProviderFromEnv time_ParseDuration env = inl (StaticToken token))
  ∧ (∀ name : string,
       env !! "SLACK_TOKEN" = None →
       env !! "SLACK_TOKEN_SSM_NAME" = Some name →
       (env !! "SLACK_TOKEN_SSM_TTL" = None →
        TokenProviderFromEnv time_ParseDuration env
        = inl (AWSParameter name 120000000000))
       ∧ (∀ (ttlEnv : string) (ttl : Duration),
            env !! "SLACK_TOKEN_SSM_TTL" = Some ttlEnv →
            time_ParseDuration ttlEnv = inl ttl →
            TokenProviderFromEnv time_ParseDuration env
            = inl (AWSParameter name ttl))
       ∧ (∀ (ttlEnv : string) (err : error),
            env !! "SLACK_TOKEN_SSM_TTL" = Some ttlEnv →
            time_ParseDuration ttlEnv = inr err →
            TokenProviderFromEnv time_ParseDuration env
            = inr (fmt_Errorf_w
                     "SLACK_TOKEN_SSM_TTL is not a valid Go duration: " err)))
  ∧ (env !! "SLACK_TOKEN" = None →
     env !! "SLACK_TOKEN_SSM_NAME" = None →
     TokenProviderFromEnv time_ParseDuration env
     = inr (errors_New
              "missing SLACK_TOKEN or SLACK_TOKEN_SSM_NAME in environment")).
Proof.
  unfold TokenProviderFromEnv, ssmTTLFromEnv, os_LookupEnv.
  split; [|split].
  - intros token ->. reflexivity.
  - intros name -> ->. split; [|split].
    + intros ->. reflexivity.
    + intros ttlEnv ttl -> ->. reflexivity.
    + intros ttlEnv err -> ->. reflexivity.
  - intros -> ->. reflexivity.
Qed.

Lemma TokenProviderFromEnv_precedence_witness :
  let parse (s : string) : Duration + error :=
    if bool_decide (s = "5m") then inl (5 * time_Minute)
    else inr (errors_New "time: invalid duration") in
  TokenProviderFromEnv parse
    (<["SLACK_TOKEN" := EmptyString]> (<["SLACK_TOKEN_SSM_NAME" := "/slack/token"]> ∅))
  = inl (StaticToken EmptyString)
  ∧ TokenProviderFromEnv parse (<["SLACK_TOKEN_SSM_NAME" := "/slack/token"]> ∅)
    = inl (AWSParameter "/slack/token" 120000000000)
  ∧ TokenProviderFromEnv parse
      (<["SLACK_TOKEN_SSM_TTL" := "5m"]> (<["SLACK_TOKEN_SSM_NAME" := "/slack/token"]> ∅))
    = inl (AWSParameter "/slack/token" 300000000000)
  ∧ TokenProviderFromEnv parse
      (<["SLACK_TOKEN_SSM_TTL" := "soon"]> (<["SLACK_TOKEN_SSM_NAME" := "/slack/token"]> ∅))
    = inr (fmt_Errorf_w "SLACK_TOKEN_SSM_TTL is not a valid Go duration: "
             (errors_New "time: invalid duration"))
  ∧ TokenProviderFromEnv parse ∅
    = inr (errors_New
             "missing SLACK_TOKEN or SLACK_TOKEN_SSM_NAME in environment").
Proof.
  intros parse.
  split; [|split; [|split; [|split]]].
  - destruct (TokenProviderFromEnv_precedence parse
                (<["SLACK_TOKEN" := EmptyString]>
                   (<["SLACK_TOKEN_SSM_NAME" := "/slack/token"]> ∅)))
      as (Hstatic & _ & _).
    apply Hstatic. reflexivity.
  - destruct (TokenProviderFromEnv_precedence parse
                (<["SLACK_TOKEN_SSM_NAME" := "/slack/token"]> ∅))
      as (_ & Hssm & _).
    destruct (Hssm "/slack/token" eq_refl eq_refl) as (Hdefault & _ & _).
    apply Hdefault. reflexivity.
  - destruct (TokenProviderFromEnv_precedence parse
                (<["SLACK_TOKEN_SSM_TTL" := "5m"]>
                   (<["SLACK_TOKEN_SSM_NAME" := "/slack/token"]> ∅)))
      as (_ & Hssm & _).
    destruct (Hssm "/slack/token" eq_refl eq_refl) as (_ & Hparsed & _).
    apply (Hparsed "5m"); reflexivity.
  - destruct (TokenProviderFromEnv_precedence parse
                (<["SLACK_TOKEN_SSM_TTL" := "soon"]>
                   (<["SLACK_TOKEN_SSM_NAME" := "/slack/token"]> ∅)))
      as (_ & Hssm & _).
    destruct (Hssm "/slack/token" eq_refl eq_refl) as (_ & _ & Hbad).
    apply (Hbad "soon"); reflexivity.
  - destruct (TokenProviderFromEnv_precedence parse ∅) as (_ & _ & Hnone).
    apply Hnone; reflexivity.
Defined.

(** *** One call of the cached provider *)

(** A first call on the fresh closure fetches; a second one, within the
    TTL, answers from the cache without any remote call. *)
Example AWSParameter_two_calls :
  AWSParameter_call "/slack/token" DefaultAWSParameterTTL
    (mkOracle None case_send 1000 None
       (inl (mkOutput (Some (mkParameter (Some "xoxb"))))) 1500)
    captured_init
  = Some (Return "xoxb" None,
          {| lock := false; token := "xoxb"; expiry := 120000001500 |},
          [call_LoadDefaultConfig; call_GetParameter "/slack/token"])
  ∧ AWSParameter_call "/slack/token" DefaultAWSParameterTTL
      (mkOracle None case_send 120000001499 None
         (inr (errors_New "unreachable")) 120000001499)
      {| lock := false; token := "xoxb"; expiry := 120000001500 |}
    = Some (Return "xoxb" None,
            {| lock := false; token := "xoxb"; expiry := 120000001500 |}, []).
Proof. split; reflexivity. Qed.

Lemma select_send_unlocked (st : captured) (ctx_err : option error)
    (pick : select_case) :
  select (lock st) ctx_err pick = Some case_send → lock st = false.
Proof. unfold select. destruct (lock st), ctx_err; congruence. Qed.

Lemma set_lock_same (st : captured) (b : bool) :
  lock st = b → set_lock b st = st.
Proof. destruct st as [l t e]. simpl. intros ->. reflexivity. Qed.

Lemma AWSParameter_call_entered (name : string) (ttl : Duration) (o : oracle)
    (st : captured) :
  select (lock st) (o_ctx_err o) (o_pick o) = Some case_send →
  AWSParameter_call name ttl o st
  = let '(r, st', calls) := critical name ttl o st in
    Some (r, set_lock false st', calls).
Proof.
  intros Hsel. unfold AWSParameter_call. rewrite Hsel.
  pose proof (select_send_unlocked _ _ _ Hsel) as Hl.
  destruct st as [l t e]. simpl in Hl. subst l.
  unfold critical, set_lock, set_token, set_expiry; simpl.
  destruct (Before (o_now_check o) e); [reflexivity|].
  destruct (awsconfig_New (o_load o)); [reflexivity|].
  destruct (o_get o) as [output|err]; [|reflexivity].
  destruct (out_Parameter output ≫= p_Value); reflexivity.
Qed.

(** A call that gets in and finds the cache expired. *)
Lemma AWSParameter_call_miss (name : string) (ttl : Duration) (o : oracle)
    (st : captured) :
  select (lock st) (o_ctx_err o) (o_pick o) = Some case_send →
  expiry st ≤ o_now_check o →
  ∃ (r : outcome) (st' : captured) (calls : list remote_call),
    AWSParameter_call name ttl o st = Some (r, st', calls)
    ∧ (match o_load o with
       | None => calls = [call_LoadDefaultConfig; call_GetParameter name]
       | Some _ => calls = [call_LoadDefaultConfig]
       end)
    ∧ (∀ v : string,
         o_load o = None →
         o_get o = inl (mkOutput (Some (mkParameter (Some v)))) →
         r = Return v None
         ∧ st' = {| lock := false; token := v;
                    expiry := o_now_store o + ttl |}).
Proof.
  intros Hsel Hge.
  rewrite (AWSParameter_call_entered _ _ _ _ Hsel). unfold critical, Before.
  apply Z.ltb_ge in Hge. rewrite Hge.
  destruct (o_load o) as [e|]; simpl.
  - eexists _, _, _. split; [reflexivity|]. split; [reflexivity|].
    intros v Hnone. discriminate.
  - destruct (o_get o) as [[[[[v|]]|]]|e]; simpl;
      (eexists _, _, _; split; [reflexivity|]; split; [reflexivity|]);
      intros v' _ Hget; try discriminate.
    injection Hget as ->. split; [reflexivity|].
    unfold set_lock, set_expiry, set_token, Add. simpl. reflexivity.
Qed.

(** C1. Take a call that gets into the critical section. If the clock at
    the check reads strictly before [expiry], the call returns the cached
    [token] with a nil error, makes no remote call and leaves the captured
    state as it was. Otherwise it runs the fetch once: the configuration is
    loaded, and when that succeeds [GetParameter] is called, exactly once;
    when [GetParameter] answers with a value, that value becomes [token],
    [expiry] becomes the clock's reading at that moment plus the TTL, and
    the value is returned with a nil error. *)
Theorem AWSParameter_hit_or_refresh (name : string) (ttl : Duration)
    (o : oracle) (st : captured) :
  select (lock st) (o_ctx_err o) (o_pick o) = Some case_send →
  (o_now_check o < expiry st →
   AWSParameter_call name ttl o st = Some (Return (token st) None, st, []))
  ∧ (expiry st ≤ o_now_check o →
     ∃ (r : outcome) (st' : captured) (calls : list remote_call),
       AWSParameter_call name ttl o st = Some (r, st', calls)
       ∧ (match o_load o with
          | None => calls = [call_LoadDefaultConfig; call_GetParameter name]
          | Some _ => calls = [call_LoadDefaultConfig]
          end)
       ∧ (∀ v : string,
            o_load o = None →
            o_get o = inl (mkOutput (Some (mkParameter (Some v)))) →
            r = Return v None
            ∧ st' = {| lock := false; token := v;
                       expiry := o_now_store o + ttl |})).
Proof.
  intros Hsel. pose proof (select_send_unlocked _ _ _ Hsel) as Hl.
  split.
  - intros Hlt. rewrite (AWSParameter_call_entered _ _ _ _ Hsel).
    unfold critical, Before. apply Z.ltb_lt in Hlt. rewrite Hlt.
    rewrite (set_lock_same _ _ Hl). reflexivity.
  - intros Hge. by apply AWSParameter_call_miss.
Qed.

Lemma AWSParameter_hit_or_refresh_witness :
  AWSParameter_call "/slack/token" 120
    (mkOracle None case_send 50 None
       (inl (mkOutput (Some (mkParameter (Some "fresh"))))) 60)
    {| lock := false; token := "cached"; expiry := 100 |}
  = Some (Return "cached" None,
          {| lock := false; token := "cached"; expiry := 100 |}, [])
  ∧ ∃ (r : outcome) (st' : captured) (calls : list remote_call),
      AWSParameter_call "/slack/token" 120
        (mkOracle None case_send 100 None
           (inl (mkOutput (Some (mkParameter (Some "fresh"))))) 107)
        {| lock := false; token := "cached"; expiry := 100 |}
      = Some (r, st', calls)
      ∧ calls = [call_LoadDefaultConfig; call_GetParameter "/slack/token"]
      ∧ r = Return "fresh" None
      ∧ st' = {| lock := false; token := "fresh"; expiry := 227 |}.
Proof.
  split.
  - refine (proj1 (AWSParameter_hit_or_refresh "/slack/token" 120
             (mkOracle None case_send 50 None
                (inl (mkOutput (Some (mkParameter (Some "fresh"))))) 60)
             {| lock := false; token := "cached"; expiry := 100 |} eq_refl) _).
    simpl. lia.
  - destruct (proj2 (AWSParameter_hit_or_refresh "/slack/token" 120
             (mkOracle None case_send 100 None
                (inl (mkOutput (Some (mkParameter (Some "fresh"))))) 107)
             {| lock := false; token := "cached"; expiry := 100 |} eq_refl))
      as (r & st' & calls & Hcall & Hcalls & Hok).
    { simpl. lia. }
    exists r, st', calls. split; [exact Hcall|]. split; [exact Hcalls|].
    apply (Hok "fresh"); reflexivity.
Defined.

(** C2. Take a call that gets into the critical section and finds the
    cache expired. If loading the configuration fails, or [GetParameter]
    returns an error, the call returns an error and the captured state is
    the one it started from. So the next call, made when the clock has not
    gone back, that gets in finds the cache expired again and runs the
    fetch again: it loads the configuration, and calls [GetParameter] when
    that succeeds. *)
Theorem AWSParameter_failure_not_cached (name : string) (ttl : Duration)
    (o : oracle) (st : captured) :
  select (lock st) (o_ctx_err o) (o_pick o) = Some case_send →
  expiry st ≤ o_now_check o →
  (is_Some (o_load o) ∨ ∃ e : error, o_get o = inr e) →
  ∃ (err : error) (st1 : captured) (calls : list remote_call),
    AWSParameter_call name ttl o st
    = Some (Return EmptyString (Some err), st1, calls)
    ∧ st1 = st
    ∧ ∀ o' : oracle,
        o_now_check o ≤ o_now_check o' →
        select (lock st1) (o_ctx_err o') (o_pick o') = Some case_send →
        ∃ (r' : outcome) (st2 : captured) (calls' : list remote_call),
          AWSParameter_call name ttl o' st1 = Some (r', st2, calls')
          ∧ head calls' = Some call_LoadDefaultConfig
          ∧ (o_load o' = None →
             calls' = [call_LoadDefaultConfig; call_GetParameter name]).
Proof.
  intros Hsel Hge Hfail.
  pose proof (select_send_unlocked _ _ _ Hsel) as Hl.
  assert (∃ (err : error) (calls : list remote_call),
            AWSParameter_call name ttl o st
            = Some (Return EmptyString (Some err), st, calls))
    as (err & calls & Hcall).
  { rewrite (AWSParameter_call_entered _ _ _ _ Hsel). unfold critical, Before.
    apply Z.ltb_ge in Hge. rewrite Hge.
    destruct Hfail as [[e He]|[e He]].
    - rewrite He. simpl. rewrite (set_lock_same _ _ Hl). eauto.
    - destruct (o_load o) as [e'|]; simpl.
      + rewrite (set_lock_same _ _ Hl). eauto.
      + rewrite He, (set_lock_same _ _ Hl). eauto. }
  exists err, st, calls. split; [exact Hcall|]. split; [reflexivity|].
  intros o' Hmono Hsel'.
  destruct (AWSParameter_call_miss name ttl o' st Hsel')
    as (r' & st2 & calls' & Hcall' & Hcalls' & _); [lia|].
  exists r', st2, calls'. split; [exact Hcall'|].
  destruct (o_load o'); subst calls'; split; try reflexivity; discriminate.
Qed.

Lemma AWSParameter_failure_not_cached_witness :
  ∃ (err : error) (calls : list remote_call),
    AWSParameter_call "/slack/token" 120
      (mkOracle None case_send 100 None (inr (errors_New "throttled")) 107)
      {| lock := false; token := "cached"; expiry := 100 |}
    = Some (Return EmptyString (Some err),
            {| lock := false; token := "cached"; expiry := 100 |}, calls)
    ∧ ∃ (r' : outcome) (st2 : captured),
        AWSParameter_call "/slack/token" 120
          (mkOracle None case_send 100 None
             (inl (mkOutput (Some (mkParameter (Some "fresh"))))) 108)
          {| lock := false; token := "cached"; expiry := 100 |}
        = Some (r', st2,
                [call_LoadDefaultConfig; call_GetParameter "/slack/token"]).
Proof.
  destruct (AWSParameter_failure_not_cached "/slack/token" 120
              (mkOracle None case_send 100 None (inr (errors_New "throttled")) 107)
              {| lock := false; token := "cached"; expiry := 100 |})
    as (err & st1 & calls & Hcall & -> & Hnext).
  { reflexivity. }
  { simpl. lia. }
  { right. eexists. reflexivity. }
  exists err, calls. split; [exact Hcall|].
  destruct (Hnext (mkOracle None case_send 100 None
                     (inl (mkOutput (Some (mkParameter (Some "fresh"))))) 108))
    as (r' & st2 & calls' & Hcall' & _ & Hcalls').
  { simpl. lia. }
  { reflexivity. }
  exists r', st2. rewrite Hcall', (Hcalls' eq_refl). reflexivity.
Defined.

(** C3 as the specification words it fails: a context that is already
    cancelled when the call starts, with the lock free, leaves both cases of
    the [select] ready; when the runtime picks the send, the call goes in
    and answers from the cache, with a nil error. *)
Lemma AWSParameter_cancelled_counterexample :
  o_ctx_err (mkOracle (Some context_Canceled) case_send 50 None
               (inr (errors_New "unused")) 60)
  = Some context_Canceled
  ∧ AWSParameter_call "/slack/token" 120
      (mkOracle (Some context_Canceled) case_send 50 None
         (inr (errors_New "unused")) 60)
      {| lock := false; token := "cached"; expiry := 100 |}
    = Some (Return "cached" None,
            {| lock := false; token := "cached"; expiry := 100 |}, [])
  ∧ AWSParameter_call "/slack/token" 120
      (mkOracle (Some context_Canceled) case_send 50 None
         (inr (errors_New "unused")) 60)
      {| lock := false; token := "cached"; expiry := 100 |}
    ≠ Some (Return EmptyString (Some context_Canceled),
            {| lock := false; token := "cached"; expiry := 100 |}, []).
Proof.
  split; [reflexivity|]. split; [reflexivity|]. discriminate.
Qed.

(** C3, amended. When the context is done at the [select] and the
    [select] takes that case, the call returns [ctx.Err()] with an empty
    token at once: no remote call, and the captured state, lock included,
    is not touched. The [select] takes that case whenever the lock is held
    at that moment, and, with the lock free, when the runtime's pick falls
    on it. The same holds of a goroutine's [select] step among concurrent
    callers. *)
Theorem AWSParameter_cancelled (name : string) (ttl : Duration) (o : oracle)
    (st : captured) (e : error) :
  o_ctx_err o = Some e →
  lock st = true ∨ o_pick o = case_done →
  select (lock st) (o_ctx_err o) (o_pick o) = Some case_done
  ∧ AWSParameter_call name ttl o st
    = Some (Return EmptyString (Some e), st, [])
  ∧ thread_step ttl (ev_select (o_ctx_err o) (o_pick o)) st at_select
    = Some (st, finished (Return EmptyString (Some e))).
Proof.
  intros He Hcase.
  assert (select (lock st) (o_ctx_err o) (o_pick o) = Some case_done) as Hsel.
  { rewrite He. unfold select. destruct Hcase as [->| ->]; [reflexivity|].
    destruct (lock st); reflexivity. }
  split; [exact Hsel|].
  unfold AWSParameter_call, thread_step. rewrite Hsel, He. split; reflexivity.
Qed.

Lemma AWSParameter_cancelled_witness :
  AWSParameter_call "/slack/token" 120
    (mkOracle (Some context_DeadlineExceeded) case_send 50 None
       (inr (errors_New "unused")) 60)
    {| lock := true; token := "cached"; expiry := 100 |}
  = Some (Return EmptyString (Some context_DeadlineExceeded),
          {| lock := true; token := "cached"; expiry := 100 |}, []).
Proof.
  refine (proj1 (proj2 (AWSParameter_cancelled "/slack/token" 120
            (mkOracle (Some context_DeadlineExceeded) case_send 50 None
               (inr (errors_New "unused")) 60)
            {| lock := true; token := "cached"; expiry := 100 |}
            context_DeadlineExceeded eq_refl _))).
  left. reflexivity.
Defined.

(** *** Concurrent callers *)

(** A call that returns is a run of one goroutine, alone, over events of
    the call's oracle, and the two count the same [GetParameter] calls. *)
Lemma AWSParameter_call_as_run (name : string) (ttl : Duration) (o : oracle)
    (st st' : captured) (r : outcome) (calls : list remote_call) :
  AWSParameter_call name ttl o st = Some (r, st', calls) →
  ∃ evs : list event,
    sublist evs (oracle_events o)
    ∧ system_run ttl ((λ ev, (0%nat, ev)) <$> evs)
        {| sys_captured := st; sys_threads := [at_select] |}
      = Some {| sys_captured := st'; sys_threads := [finished r] |}
    ∧ count_fetches ((λ ev, (0%nat, ev)) <$> evs)
      = length (filter (λ c, is_GetParameter c = true) calls).
Proof.
  unfold AWSParameter_call, oracle_events. intros Hcall.
  destruct (select (lock st) (o_ctx_err o) (o_pick o)) as [[]|] eqn:Hsel;
    [| |discriminate].
  - pose proof (select_send_unlocked _ _ _ Hsel) as Hl.
    unfold critical in Hcall. simpl in Hcall.
    destruct (Before (o_now_check o) (expiry st)) eqn:Hb.
    { injection Hcall as <- <- <-.
      exists [ev_select (o_ctx_err o) (o_pick o); ev_now (o_now_check o); ev_defer].
      split; [repeat first [apply sublist_skip | apply sublist_cons | apply sublist_nil]|].
      split; [|reflexivity].
      simpl. unfold system_step. simpl. rewrite Hsel. simpl. rewrite Hb.
      reflexivity. }
    destruct (awsconfig_New (o_load o)) as [e|] eqn:Hload.
    { injection Hcall as <- <- <-.
      exists [ev_select (o_ctx_err o) (o_pick o); ev_now (o_now_check o);
              ev_load (o_load o); ev_defer].
      split; [repeat first [apply sublist_skip | apply sublist_cons | apply sublist_nil]|].
      split; [|reflexivity].
      simpl. unfold system_step. simpl. rewrite Hsel. simpl. rewrite Hb. simpl.
      rewrite Hload. reflexivity. }
    destruct (o_get o) as [output|e] eqn:Hget.
    + destruct (out_Parameter output ≫= p_Value) as [v|] eqn:Hv.
      * injection Hcall as <- <- <-.
        eexists. split; [reflexivity|]. split; [|reflexivity].
        simpl. unfold system_step. simpl. rewrite Hsel. simpl. rewrite Hb. simpl.
        rewrite Hload. simpl. rewrite Hv. reflexivity.
      * injection Hcall as <- <- <-.
        exists [ev_select (o_ctx_err o) (o_pick o); ev_now (o_now_check o);
                ev_load (o_load o); ev_get (inl output); ev_defer].
        split; [repeat first [apply sublist_skip | apply sublist_cons | apply sublist_nil]|].
        split; [|reflexivity].
        simpl. unfold system_step. simpl. rewrite Hsel. simpl. rewrite Hb. simpl.
        rewrite Hload. simpl. rewrite Hv. reflexivity.
    + injection Hcall as <- <- <-.
      exists [ev_select (o_ctx_err o) (o_pick o); ev_now (o_now_check o);
              ev_load (o_load o); ev_get (inr e); ev_defer].
      split; [repeat first [apply sublist_skip | apply sublist_cons | apply sublist_nil]|].
      split; [|reflexivity].
      simpl. unfold system_step. simpl. rewrite Hsel. simpl. rewrite Hb. simpl.
      rewrite Hload. reflexivity.
  - injection Hcall as <- <- <-.
    exists [ev_select (o_ctx_err o) (o_pick o)].
    split; [repeat first [apply sublist_skip | apply sublist_cons | apply sublist_nil]|].
    split; [|reflexivity].
    simpl. unfold system_step. simpl. rewrite Hsel. reflexivity.
Qed.

Lemma count_inside_insert (ps : list pc) (tid : nat) (p p' : pc) :
  ps !! tid = Some p →
  (count_inside (<[tid := p']> ps) + (if inside p then 1 else 0)
   = count_inside ps + (if inside p' then 1 else 0))%nat.
Proof.
  revert tid. induction ps as [|q ps IH]; intros tid Hp; [discriminate|].
  destruct tid as [|tid]; simpl in *.
  - injection Hp as ->. unfold count_inside. rewrite !filter_cons.
    destruct (inside p), (inside p'); repeat case_decide;
      try congruence; simpl; lia.
  - specialize (IH tid Hp). unfold count_inside in *. rewrite !filter_cons.
    case_decide; simpl; lia.
Qed.

Lemma inside_unique (ps : list pc) (i j : nat) (p q : pc) :
  (count_inside ps ≤ 1)%nat →
  ps !! i = Some p → ps !! j = Some q →
  inside p = true → inside q = true → i = j.
Proof.
  intros Hle Hi Hj Hp Hq.
  destruct (decide (i = j)) as [|Hne]; [assumption|exfalso].
  pose proof (count_inside_insert ps i p at_select Hi) as H1.
  assert (<[i := at_select]> ps !! j = Some q) as Hj'
    by (rewrite list_lookup_insert_ne; assumption).
  pose proof (count_inside_insert _ j q at_select Hj') as H2.
  rewrite Hp in H1. rewrite Hq in H2. simpl in H1, H2. lia.
Qed.

(** A step either keeps the lock and the side of the goroutine, or takes
    the lock on the way in, or gives it back on the way out. *)
Lemma thread_step_lock (ttl : Duration) (ev : event) (st st' : captured)
    (p p' : pc) :
  thread_step ttl ev st p = Some (st', p') →
  (lock st' = lock st ∧ inside p' = inside p)
  ∨ (lock st = false ∧ lock st' = true ∧ inside p = false ∧ inside p' = true)
  ∨ (lock st = true ∧ lock st' = false ∧ inside p = true ∧ inside p' = false).
Proof.
  unfold thread_step. intros H.
  destruct p, ev; try discriminate; simpl.
  - unfold select in H.
    destruct (lock st) eqn:Hl, ctx_err as [e|]; try discriminate;
      [| destruct pick |]; injection H as <- <-; simpl; auto 10.
  - destruct (Before t (expiry st)); injection H as <- <-; simpl; auto 10.
  - destruct (awsconfig_New err); injection H as <- <-; simpl; auto 10.
  - destruct r as [output|err]; [|injection H as <- <-; simpl; auto 10].
    destruct (out_Parameter output ≫= p_Value); injection H as <- <-; simpl; auto 10.
  - injection H as <- <-. simpl. auto 10.
  - destruct (lock st) eqn:Hl; [|discriminate]. injection H as <- <-.
    simpl. auto 10.
Qed.

Lemma system_step_lock_matches (ttl : Duration) (l : nat * event)
    (s s' : system) :
  lock_matches s → system_step ttl l s = Some s' → lock_matches s'.
Proof.
  unfold lock_matches, system_step. destruct l as [tid ev]. intros Hinv Hstep.
  destruct (sys_threads s !! tid) as [p|] eqn:Hp; [|discriminate].
  simpl in Hstep.
  destruct (thread_step ttl ev (sys_captured s) p) as [[st' p']|] eqn:Hts;
    [|discriminate].
  injection Hstep as <-. simpl.
  pose proof (count_inside_insert _ tid p p' Hp) as Hcount.
  destruct (thread_step_lock _ _ _ _ _ _ Hts)
    as [[Hl Hi]|[(Hl & Hl' & Hi & Hi')|(Hl & Hl' & Hi & Hi')]].
  - rewrite Hl, Hi in *. destruct (inside p); lia.
  - rewrite Hl, Hl', Hi, Hi' in *. lia.
  - rewrite Hl, Hl', Hi, Hi' in *. lia.
Qed.

Lemma system_run_lock_matches (ttl : Duration) (sched : list (nat * event))
    (s s' : system) :
  lock_matches s → system_run ttl sched s = Some s' → lock_matches s'.
Proof.
  revert s. induction sched as [|l sched IH]; intros s Hinv Hrun; simpl in Hrun.
  - injection Hrun as <-. exact Hinv.
  - destruct (system_step ttl l s) as [s1|] eqn:Hstep; [|discriminate].
    simpl in Hrun. eapply IH; [|exact Hrun].
    eapply system_step_lock_matches; eassumption.
Qed.

Lemma system_init_lock_matches (st : captured) (n : nat) :
  lock st = false → lock_matches (system_init st n).
Proof.
  unfold lock_matches, system_init. simpl. intros ->.
  induction n as [|n IH]; [reflexivity|].
  simpl. unfold count_inside in *. rewrite filter_cons.
  case_decide; [discriminate|exact IH].
Qed.

Lemma count_inside_pos (ps : list pc) (tid : nat) (p : pc) :
  ps !! tid = Some p → inside p = true → (1 ≤ count_inside ps)%nat.
Proof.
  intros Hp Hin. pose proof (count_inside_insert ps tid p at_select Hp) as H.
  rewrite Hin in H. simpl in H. lia.
Qed.

Lemma lock_matches_held (s : system) (tid : nat) (p : pc) :
  lock_matches s → sys_threads s !! tid = Some p → inside p = true →
  lock (sys_captured s) = true.
Proof.
  unfold lock_matches. intros Hinv Hp Hin.
  pose proof (count_inside_pos _ _ _ Hp Hin).
  destruct (lock (sys_captured s)); [reflexivity|lia].
Qed.

Lemma lock_matches_le (s : system) :
  lock_matches s → (count_inside (sys_threads s) ≤ 1)%nat.
Proof. unfold lock_matches. destruct (lock (sys_captured s)); lia. Qed.

(** When the goroutine inside moves on, the others are outside, so what
    was known of all of them carries over to the new phase. *)
Lemma Forall_insert_phase (P Q : pc → Prop) (ps : list pc) (tid : nat)
    (p p' : pc) :
  (count_inside ps ≤ 1)%nat →
  ps !! tid = Some p → inside p = true →
  Forall P ps →
  (∀ q, P q → inside q = false → Q q) →
  Q p' →
  Forall Q (<[tid := p']> ps).
Proof.
  intros Hle Hp Hin Hall Hout Hq'. apply Forall_lookup. intros j q Hj.
  destruct (decide (tid = j)) as [<-|Hne].
  - rewrite list_lookup_insert_eq in Hj by (eapply lookup_lt_Some; eassumption).
    injection Hj as <-. exact Hq'.
  - rewrite list_lookup_insert_ne in Hj by assumption.
    apply Hout; [eapply Forall_lookup_1; eassumption|].
    destruct (inside q) eqn:Hq; [|reflexivity].
    exfalso. apply Hne. eapply inside_unique; eassumption.
Qed.

Lemma select_done_err (l : bool) (ctx_err : option error) (pick : select_case) :
  select l ctx_err pick = Some case_done → is_Some ctx_err.
Proof. unfold select. destruct l, ctx_err; try discriminate; eauto. Qed.

Lemma system_step_phase (t0 : Time) (ttl : Duration) (l : nat * event)
    (s s' : system) (k : nat) :
  lock_matches s →
  single_flight_phase t0 ttl k s →
  good_event t0 ttl l.2 = true →
  system_step ttl l s = Some s' →
  single_flight_phase t0 ttl (k + if is_get l then 1 else 0) s'.
Proof.
  destruct l as [tid ev]. destruct s as [st ps].
  unfold system_step, is_get. simpl. intros Hinv Hphase Hgood Hstep.
  destruct (ps !! tid) as [p|] eqn:Hp; [|discriminate]. simpl in Hstep.
  destruct (thread_step ttl ev st p) as [[st' p']|] eqn:Hts; [|discriminate].
  injection Hstep as <-.
  pose proof (lock_matches_le _ Hinv) as Hle. simpl in Hle.
  unfold single_flight_phase in *; simpl in *.
  destruct Hphase as [(-> & Hexp & Hall)|[(-> & Hlk & Hall)|(-> & Hexp & Hall)]];
    pose proof (Forall_lookup_1 _ _ _ _ Hall Hp) as Hpc; simpl in Hpc.
  - (* no fetch has answered yet *)
    destruct p; try discriminate Hpc; destruct ev; try discriminate Hts;
      simpl in Hts, Hgood.
    + left. destruct (select (lock st) ctx_err pick) as [[]|] eqn:Hsel;
        [| |discriminate]; injection Hts as <- <-; simpl.
      * split; [reflexivity|]. split; [exact Hexp|].
        apply Forall_insert; [exact Hall|reflexivity].
      * destruct (select_done_err _ _ _ Hsel) as [e ->].
        split; [reflexivity|]. split; [exact Hexp|].
        apply Forall_insert; [exact Hall|reflexivity].
    + left. apply andb_true_iff in Hgood as [Hlo Hhi].
      apply Z.leb_le in Hlo. unfold Before in Hts.
      rewrite (proj2 (Z.ltb_ge t (expiry st))) in Hts by lia.
      injection Hts as <- <-.
      split; [reflexivity|]. split; [exact Hexp|].
      apply Forall_insert; [exact Hall|reflexivity].
    + left. destruct err as [e|]; [discriminate|]. simpl in Hts.
      injection Hts as <- <-.
      split; [reflexivity|]. split; [exact Hexp|].
      apply Forall_insert; [exact Hall|reflexivity].
    + right; left. destruct r as [output|e]; [|discriminate].
      destruct (out_Parameter output ≫= p_Value) as [v|]; [|discriminate].
      injection Hts as <- <-. simpl.
      split; [reflexivity|]. split.
      * apply (lock_matches_held _ tid at_get Hinv Hp). reflexivity.
      * eapply Forall_insert_phase; try eassumption; try reflexivity.
        intros [] Hq Hout; try discriminate; exact Hq.
  - (* the fetched value is being stored *)
    destruct p; try discriminate Hpc; destruct ev; try discriminate Hts;
      simpl in Hts, Hgood.
    + right; left. rewrite Hlk in Hts. unfold select in Hts.
      destruct ctx_err as [e|]; [|discriminate]. injection Hts as <- <-.
      split; [reflexivity|]. split; [exact Hlk|].
      apply Forall_insert; [exact Hall|reflexivity].
    + right; right. apply andb_true_iff in Hgood as [Hlo Hhi].
      apply Z.leb_le in Hlo. injection Hts as <- <-. simpl.
      split; [reflexivity|]. split; [unfold Add; lia|].
      eapply Forall_insert_phase; try eassumption; try reflexivity.
      intros [] Hq Hout; try discriminate; try reflexivity.
      destruct r as [tok err|]; [reflexivity|discriminate].
  - (* the value is cached *)
    destruct p; try discriminate Hpc; destruct ev; try discriminate Hts;
      simpl in Hts, Hgood.
    + right; right.
      destruct (select (lock st) ctx_err pick) as [[]|] eqn:Hsel;
        [| |discriminate]; injection Hts as <- <-; simpl;
        (split; [reflexivity|]; split; [exact Hexp|]);
        apply Forall_insert; try exact Hall; reflexivity.
    + right; right. apply andb_true_iff in Hgood as [Hlo Hhi].
      apply Z.ltb_lt in Hhi. unfold Before in Hts.
      rewrite (proj2 (Z.ltb_lt t (expiry st))) in Hts by lia.
      injection Hts as <- <-.
      split; [reflexivity|]. split; [exact Hexp|].
      apply Forall_insert; [exact Hall|reflexivity].
    + right; right. destruct (lock st); [|discriminate].
      injection Hts as <- <-. simpl.
      split; [reflexivity|]. split; [exact Hexp|].
      apply Forall_insert; [exact Hall|].
      destruct r as [tok [e|]|]; try discriminate Hpc; reflexivity.
Qed.

Lemma system_run_phase (t0 : Time) (ttl : Duration)
    (sched : list (nat * event)) (s s' : system) (k : nat) :
  lock_matches s →
  single_flight_phase t0 ttl k s →
  good_schedule t0 ttl sched = true →
  system_run ttl sched s = Some s' →
  single_flight_phase t0 ttl (k + count_fetches sched) s'.
Proof.
  revert s k. induction sched as [|l sched IH]; intros s k Hinv Hphase Hgood Hrun;
    simpl in Hrun.
  - injection Hrun as <-. unfold count_fetches. simpl.
    rewrite Nat.add_0_r. exact Hphase.
  - destruct (system_step ttl l s) as [s1|] eqn:Hstep; [|discriminate].
    simpl in Hrun, Hgood. apply andb_true_iff in Hgood as [Hl Hrest].
    pose proof (system_step_lock_matches _ _ _ _ Hinv Hstep) as Hinv1.
    pose proof (system_step_phase _ _ _ _ _ _ Hinv Hphase Hl Hstep) as Hphase1.
    specialize (IH _ _ Hinv1 Hphase1 Hrest Hrun).
    unfold count_fetches in *. rewrite filter_cons.
    destruct (is_get l); case_decide; try congruence; simpl.
    + replace (S (length (filter (λ l0, is_get l0 = true) sched)))
        with (1 + length (filter (λ l0, is_get l0 = true) sched))%nat by lia.
      rewrite Nat.add_assoc. exact IH.
    + rewrite Nat.add_0_r in IH. exact IH.
Qed.

Lemma system_init_phase (t0 : Time) (ttl : Duration) (st : captured) (n : nat) :
  expiry st ≤ t0 → single_flight_phase t0 ttl 0 (system_init st n).
Proof.
  intros Hexp. left. split; [reflexivity|]. split; [exact Hexp|].
  simpl. apply Forall_replicate. reflexivity.
Qed.

Lemma count_inside_exists (ps : list pc) :
  (1 ≤ count_inside ps)%nat →
  ∃ (tid : nat) (p : pc), ps !! tid = Some p ∧ inside p = true.
Proof.
  unfold count_inside. intros Hpos.
  destruct (filter (λ p, inside p = true) ps) as [|p l] eqn:Hf;
    [simpl in Hpos; lia|].
  assert (p ∈ filter (λ p, inside p = true) ps) as Hin
    by (rewrite Hf; apply list_elem_of_here).
  apply list_elem_of_filter in Hin as [Hp Hin].
  apply list_elem_of_lookup in Hin as [tid Htid]. eauto.
Qed.










End SlackSpec.

(** * Further properties of the parser, the names and the shuffle *)

Module RandomizerExtra.
Import Randomizer.

(** The shapes a first token can have, as the parser tells them apart. *)
Lemma first_token_cases (arg0 : string) :
  arg0 = "/help" ∨ arg0 = "/list" ∨ arg0 = "/show" ∨ arg0 = "/save"
  ∨ arg0 = "/delete" ∨ arg0 ∉ known_flags.
Proof.
  destruct (decide (arg0 = "/help")) as [|H1]; [auto|].
  destruct (decide (arg0 = "/list")) as [|H2]; [auto|].
  destruct (decide (arg0 = "/show")) as [|H3]; [auto|].
  destruct (decide (arg0 = "/save")) as [|H4]; [auto 6|].
  destruct (decide (arg0 = "/delete")) as [|H5]; [auto 6|].
  do 5 right. unfold known_flags. rewrite !not_elem_of_cons.
  repeat (split; [assumption|]). apply not_elem_of_nil.
Qed.

Lemma parseArgs_other (arg0 : string) (rest : list string) :
  arg0 ∉ known_flags →
  arg0 :: rest ≠ ["help"] →
  parseArgs (arg0 :: rest) = (makeSelection, EmptyString, arg0 :: rest, None).
Proof.
  intros Hflag Hhelp. unfold known_flags in Hflag.
  rewrite !not_elem_of_cons in Hflag.
  destruct Hflag as (H1 & H2 & H3 & H4 & H5 & _).
  unfold parseArgs.
  rewrite (bool_decide_eq_false_2 _ H1), (bool_decide_eq_false_2 _ H2),
    (bool_decide_eq_false_2 _ H3), (bool_decide_eq_false_2 _ H4),
    (bool_decide_eq_false_2 _ H5).
  destruct rest as [|x rest]; simpl; [|reflexivity].
  rewrite bool_decide_eq_false_2; [reflexivity|]. intros ->. by apply Hhelp.
Qed.

Lemma known_flags_elem (arg0 : string) :
  arg0 ∈ known_flags
  ↔ arg0 = "/help" ∨ arg0 = "/list" ∨ arg0 = "/show" ∨ arg0 = "/save"
    ∨ arg0 = "/delete".
Proof.
  unfold known_flags. rewrite !elem_of_cons, elem_of_nil. tauto.
Qed.

Lemma operand_flags_elem (flag : string) (op : operation) :
  (flag, op) ∈ operand_flags
  ↔ (flag = "/show" ∧ op = showGroup) ∨ (flag = "/save" ∧ op = saveGroup)
    ∨ (flag = "/delete" ∧ op = deleteGroup).
Proof.
  unfold operand_flags. rewrite !elem_of_cons, elem_of_nil.
  split.
  - intros [H|[H|[H|[]]]]; injection H as -> ->; auto.
  - intros [[-> ->]|[[-> ->]|[-> ->]]]; auto.
Qed.

(** X1. [parseArgs] reports an error for exactly three inputs: one of the
    flags [/show], [/save], [/delete] as the only token. The error is then
    the missing-operand error of that flag. Every other token list, however
    odd, parses. *)
Theorem parseArgs_error_iff (args : list string) (e : Error) :
  (parseArgs args).2 = Some e
  ↔ ∃ (flag : string) (op : operation),
      (flag, op) ∈ operand_flags ∧ args = [flag] ∧ e = MissingOperand flag.
Proof.
  split.
  - destruct args as [|arg0 rest]; [discriminate|].
    destruct (first_token_cases arg0)
      as [->|[->|[->|[->|[->|Hother]]]]].
    + destruct rest; cbn; discriminate.
    + destruct rest; cbn; discriminate.
    + destruct rest as [|b rest]; cbn; [|discriminate]. intros [= <-].
      exists "/show", showGroup. rewrite operand_flags_elem. auto.
    + destruct rest as [|b rest]; cbn; [|discriminate]. intros [= <-].
      exists "/save", saveGroup. rewrite operand_flags_elem. auto.
    + destruct rest as [|b rest]; cbn; [|discriminate]. intros [= <-].
      exists "/delete", deleteGroup. rewrite operand_flags_elem. auto 6.
    + destruct (decide (arg0 :: rest = ["help"])) as [[= -> ->]|Hne];
        [discriminate|].
      rewrite (parseArgs_other _ _ Hother Hne). discriminate.
  - intros (flag & op & Hin & -> & ->).
    apply operand_flags_elem in Hin as [[-> ->]|[[-> ->]|[-> ->]]];
      reflexivity.
Qed.

(** X2. A parse without error loses no token, and its operation fixes the
    shape of the input. For help, list and selection the arguments are the
    whole input: help comes only from the empty list, a first token [/help]
    or the lone [help]; list only from a first token [/list]; selection
    only from a first token that is no known flag. For show, save and
    delete the input is the flag, then the operand, then the arguments. *)
Theorem parseArgs_inversion (args : list string) (op : operation)
    (operand : string) (opargs : list string) :
  parseArgs args = (op, operand, opargs, None) →
  (op = showHelp ∧ operand = EmptyString ∧ opargs = args
   ∧ (args = [] ∨ head args = Some "/help" ∨ args = ["help"]))
  ∨ (op = listGroups ∧ operand = EmptyString ∧ opargs = args
     ∧ head args = Some "/list")
  ∨ (∃ flag : string,
       (flag, op) ∈ operand_flags ∧ args = flag :: operand :: opargs)
  ∨ (op = makeSelection ∧ operand = EmptyString ∧ opargs = args
     ∧ ∃ (arg0 : string) (rest : list string),
         args = arg0 :: rest ∧ (arg0 ∉ known_flags) ∧ (args ≠ ["help"])).
Proof.
  destruct args as [|arg0 rest].
  { intros [= <- <- <-]. left. auto 10. }
  destruct (first_token_cases arg0) as [->|[->|[->|[->|[->|Hother]]]]].
  - destruct rest; cbn; intros [= <- <- <-]; left; simpl; auto 10.
  - destruct rest; cbn; intros [= <- <- <-]; right; left; simpl; auto 10.
  - destruct rest as [|b rest]; cbn; [discriminate|]. intros [= <- <- <-].
    right; right; left. exists "/show". rewrite operand_flags_elem. auto.
  - destruct rest as [|b rest]; cbn; [discriminate|]. intros [= <- <- <-].
    right; right; left. exists "/save". rewrite operand_flags_elem. auto.
  - destruct rest as [|b rest]; cbn; [discriminate|]. intros [= <- <- <-].
    right; right; left. exists "/delete". rewrite operand_flags_elem. auto 6.
  - destruct (decide (arg0 :: rest = ["help"])) as [[= -> ->]|Hne].
    + intros [= <- <- <-]. left. auto 10.
    + rewrite (parseArgs_other _ _ Hother Hne). intros [= <- <- <-].
      do 3 right. eauto 10.
Qed.

Lemma parseArgs_inversion_witness :
  ∃ flag : string,
    (flag, saveGroup) ∈ operand_flags
    ∧ ["/save"; "lunch"; "ramen"; "tacos"] = flag :: "lunch" :: ["ramen"; "tacos"].
Proof.
  destruct (parseArgs_inversion ["/save"; "lunch"; "ramen"; "tacos"]
              saveGroup "lunch" ["ramen"; "tacos"] eq_refl)
    as [(H & _)|[(H & _)|[H|(H & _)]]]; try discriminate H.
  exact H.
Defined.

(** X3. With two tokens or more, [parseArgs] decides on the first token
    alone: the operation, the operand and the error are those of the first
    two tokens on their own, and the tokens after them are handed on
    untouched, at the end of the arguments. No token after the first is
    ever read as a flag. *)
Theorem parseArgs_tail (arg0 arg1 : string) (rest : list string) :
  parseArgs (arg0 :: arg1 :: rest)
  = ((parseArgs [arg0; arg1]).1.1.1,
     (parseArgs [arg0; arg1]).1.1.2,
     ((parseArgs [arg0; arg1]).1.2 ++ rest)%list,
     (parseArgs [arg0; arg1]).2)
  ∧ (parseArgs (arg0 :: arg1 :: rest)).2 = None.
Proof.
  destruct (first_token_cases arg0) as [->|[->|[->|[->|[->|Hother]]]]];
    try (split; reflexivity).
  assert (∀ l : list string, arg0 :: arg1 :: l ≠ ["help"]) as Hne
    by (intros l; discriminate).
  rewrite !(parseArgs_other _ _ Hother (Hne _)). split; reflexivity.
Qed.

(** X4. [operation.String] gives the six operations six different names,
    none of them empty, and gives the empty string to exactly the integers
    that are none of the six constants. *)
Theorem operation_String_names :
  (∀ op : operation,
     operation_String_int (Z.of_nat (operation_iota op)) = operation_String op)
  ∧ (∀ op1 op2 : operation,
       operation_String op1 = operation_String op2 → op1 = op2)
  ∧ (∀ n : Z, operation_String_int n = EmptyString ↔ (n < 0 ∨ 5 < n)%Z).
Proof.
  split; [|split].
  - intros []; reflexivity.
  - intros [] []; simpl; intros H; try reflexivity; discriminate H.
  - intros n. unfold operation_String_int.
    destruct (Z.eqb_spec n 0) as [->|?]; [split; [discriminate|lia]|].
    destruct (Z.eqb_spec n 1) as [->|?]; [split; [discriminate|lia]|].
    destruct (Z.eqb_spec n 2) as [->|?]; [split; [discriminate|lia]|].
    destruct (Z.eqb_spec n 3) as [->|?]; [split; [discriminate|lia]|].
    destruct (Z.eqb_spec n 4) as [->|?]; [split; [discriminate|lia]|].
    destruct (Z.eqb_spec n 5) as [->|?]; [split; [discriminate|lia]|].
    split; [lia|reflexivity].
Qed.

(** X5. The swap that [shuffle] hands to [rand.Shuffle] panics exactly
    when one of the two indices is out of range. Otherwise it exchanges the
    two elements and touches nothing else, keeps the length, and undoes
    itself when applied again. *)
Theorem swap_exchange {A : Type} (i j : nat) (l : list A) :
  (swap i j l = None ↔ (length l ≤ i ∨ length l ≤ j)%nat)
  ∧ (∀ l' : list A,
       swap i j l = Some l' →
       length l' = length l
       ∧ l' !! i = l !! j
       ∧ l' !! j = l !! i
       ∧ (∀ k : nat, k ≠ i → k ≠ j → l' !! k = l !! k)
       ∧ swap i j l' = Some l).
Proof.
  unfold swap. split.
  - rewrite <- !lookup_ge_None.
    destruct (l !! i) as [oi|], (l !! j) as [oj|]; simpl;
      split; try discriminate; try tauto; auto.
    intros [H|H]; discriminate H.
  - intros l'. destruct (l !! i) as [oi|] eqn:Hi; [|discriminate].
    destruct (l !! j) as [oj|] eqn:Hj; [|discriminate]. simpl.
    intros [= <-].
    pose proof (lookup_lt_Some _ _ _ Hi) as Hil.
    pose proof (lookup_lt_Some _ _ _ Hj) as Hjl.
    assert (<[j:=oi]> (<[i:=oj]> l) !! i = Some oj) as Hi'.
    { rewrite list_lookup_insert. case_decide as Hd.
      - destruct Hd as [-> _]. congruence.
      - apply list_lookup_insert_eq. exact Hil. }
    assert (<[j:=oi]> (<[i:=oj]> l) !! j = Some oi) as Hj'.
    { apply list_lookup_insert_eq. rewrite length_insert. exact Hjl. }
    split; [by rewrite !length_insert|].
    split; [exact Hi'|]. split; [exact Hj'|]. split.
    + intros k Hki Hkj. by rewrite !list_lookup_insert_ne.
    + rewrite Hi', Hj'. simpl. f_equal. apply list_eq. intros k.
      destruct (decide (j = k)) as [<-|Hjk].
      { rewrite list_lookup_insert_eq by (by rewrite !length_insert).
        symmetry. exact Hj. }
      rewrite list_lookup_insert_ne by assumption.
      destruct (decide (i = k)) as [<-|Hik].
      { rewrite list_lookup_insert_eq by (by rewrite !length_insert).
        symmetry. exact Hi. }
      by rewrite !list_lookup_insert_ne.
Qed.

Lemma swap_exchange_witness :
  swap 0 2 ["a"; "b"; "c"] = Some ["c"; "b"; "a"]
  ∧ swap 0 2 ["c"; "b"; "a"] = Some ["a"; "b"; "c"]
  ∧ swap 0 3 ["a"; "b"; "c"] = None.
Proof.
  destruct (swap_exchange 0 2 ["a"; "b"; "c"]) as (_ & Hsome).
  destruct (Hsome ["c"; "b"; "a"] eq_refl) as (_ & _ & _ & _ & Hback).
  split; [reflexivity|]. split; [exact Hback|].
  apply (swap_exchange 0 3 ["a"; "b"; "c"]). right. simpl. lia.
Defined.

Lemma Shuffle_loop_permutes {A : Type} (i : nat) (draws : list nat)
    (l l' : list A) :
  Shuffle_loop i draws swap l = Some l' → l' ≡ₚ l.
Proof.
  revert draws l. induction i as [|i IH]; intros draws l; simpl.
  - intros [= <-]. reflexivity.
  - destruct draws as [|j draws]; [discriminate|].
    destruct (swap (S i) j l) as [l1|] eqn:Hs; [|discriminate]. simpl.
    intros Hrun. rewrite (IH _ _ Hrun).
    unfold swap in Hs.
    destruct (l !! S i) as [oi|] eqn:Hi; [|discriminate].
    destruct (l !! j) as [oj|] eqn:Hj; [|discriminate].
    injection Hs as <-. by apply Permutation_insert_swap.
Qed.

(** X6. Whenever [shuffle] returns, with whatever values the generator
    gave it, the result holds the options it was given, each as often as
    before: nothing is lost, added or duplicated. An empty list and a list
    of one option come back as they are, and no value of the generator is
    used for them. *)
Theorem shuffle_keeps_options (draws : list nat) (options out : list string) :
  shuffle draws options = Some out →
  out ≡ₚ options
  ∧ length out = length options
  ∧ (∀ x : string, x ∈ out ↔ x ∈ options)
  ∧ ((length options ≤ 1)%nat → out = options).
Proof.
  unfold shuffle, rand_Shuffle. intros Hrun.
  pose proof (Shuffle_loop_permutes _ _ _ _ Hrun) as Hp.
  split; [exact Hp|]. split; [by apply Permutation_length|].
  split; [intros x; by rewrite Hp|].
  intros Hle. destruct options as [|a [|b options]]; simpl in *;
    [congruence|congruence|lia].
Qed.

Lemma shuffle_keeps_options_witness :
  ["b"; "a"; "c"] ≡ₚ ["a"; "b"; "c"]
  ∧ length ["b"; "a"; "c"] = length ["a"; "b"; "c"].
Proof.
  destruct (shuffle_keeps_options [2; 0]%nat ["a"; "b"; "c"] ["b"; "a"; "c"]
              eq_refl) as (Hperm & Hlen & _).
  split; [exact Hperm|exact Hlen].
Defined.

End RandomizerExtra.

(** * Further properties of the token providers *)

Module SlackExtra.
Import Slack.

Local Open Scope Z_scope.

(** X7. [TokenProviderFromEnv] fails in two situations only, both with
    [SLACK_TOKEN] unset: [SLACK_TOKEN_SSM_NAME] is unset too, or it is set
    and [SLACK_TOKEN_SSM_TTL] is set to something [time.ParseDuration]
    rejects. A bad TTL is no error when [SLACK_TOKEN] is set, and is not the
    error reported when the name is missing. *)
Theorem TokenProviderFromEnv_error_iff
    (time_ParseDuration : string → Duration + error)
    (env : gmap string string) (err : error) :
  TokenProviderFromEnv time_ParseDuration env = inr err
  ↔ env !! "SLACK_TOKEN" = None
    ∧ ((env !! "SLACK_TOKEN_SSM_NAME" = None
        ∧ err = errors_New
                  "missing SLACK_TOKEN or SLACK_TOKEN_SSM_NAME in environment")
       ∨ (is_Some (env !! "SLACK_TOKEN_SSM_NAME")
          ∧ ∃ (ttlEnv : string) (cause : error),
              env !! "SLACK_TOKEN_SSM_TTL" = Some ttlEnv
              ∧ time_ParseDuration ttlEnv = inr cause
              ∧ errors_Unwrap err = Some cause
              ∧ err = fmt_Errorf_w
                        "SLACK_TOKEN_SSM_TTL is not a valid Go duration: "
                        cause)).
Proof.
  unfold TokenProviderFromEnv, ssmTTLFromEnv, os_LookupEnv.
  destruct (env !! "SLACK_TOKEN") as [tok|].
  { split; [discriminate|]. intros [H _]. discriminate H. }
  destruct (env !! "SLACK_TOKEN_SSM_NAME") as [name|].
  - destruct (env !! "SLACK_TOKEN_SSM_TTL") as [ttlEnv|].
    + destruct (time_ParseDuration ttlEnv) as [ttl|cause] eqn:Hparse.
      * split; [discriminate|].
        intros (_ & [(H & _)|(_ & s & c & [= <-] & Hc & _)]);
          [discriminate H|congruence].
      * split.
        -- intros [= <-]. split; [reflexivity|]. right.
           split; [eauto|]. exists ttlEnv, cause. auto.
        -- intros (_ & [(H & _)|(_ & s & c & [= <-] & Hc & _ & ->)]);
             [discriminate H|congruence].
    + split; [discriminate|].
      intros (_ & [(H & _)|(_ & s & c & H & _)]); discriminate H.
  - split.
    + intros [= <-]. auto.
    + intros (_ & [(_ & ->)|([x H] & _)]); [reflexivity|discriminate H].
Qed.

(** *** One call of the cached provider *)

Lemma critical_lock (name : string) (ttl : Duration) (o : oracle)
    (st : captured) :
  lock (critical name ttl o st).1.2 = lock st.
Proof.
  unfold critical. destruct (Before _ _); [reflexivity|].
  destruct (awsconfig_New _); [reflexivity|].
  destruct (o_get o) as [output|e]; [|reflexivity].
  destruct (out_Parameter output ≫= p_Value); reflexivity.
Qed.

(** X8. A call blocks exactly when the lock is held and its context is not
    done. A call that returns, by whatever way out, leaves the lock as it
    found it: free if it was free, and still held, by its holder, if the
    call gave up waiting. *)
Theorem AWSParameter_call_lock (name : string) (ttl : Duration) (o : oracle)
    (st : captured) :
  (AWSParameter_call name ttl o st = None
   ↔ lock st = true ∧ o_ctx_err o = None)
  ∧ (∀ (r : outcome) (st' : captured) (calls : list remote_call),
       AWSParameter_call name ttl o st = Some (r, st', calls) →
       lock st' = lock st).
Proof.
  unfold AWSParameter_call, select. split.
  - destruct (lock st), (o_ctx_err o) as [e|], (o_pick o); simpl;
      try destruct (critical _ _ _ _) as [[r st'] calls];
      split; try discriminate; try tauto;
      intros [H1 H2]; discriminate.
  - intros r st' calls.
    destruct (lock st) eqn:Hl, (o_ctx_err o) as [e|]; try discriminate;
      try (intros [= <- <- <-]; exact Hl).
    + destruct (o_pick o).
      * destruct (critical _ _ _ _) as [[r1 st1] calls1].
        intros [= <- <- <-]. reflexivity.
      * intros [= <- <- <-]. exact Hl.
    + destruct (critical _ _ _ _) as [[r1 st1] calls1].
      intros [= <- <- <-]. reflexivity.
Qed.

(** X9. A call that returns an error returns an empty token with it and
    leaves the captured state exactly as it was. The error is the
    context's, with no remote call made; or it wraps the error of the
    configuration loader, after that one call; or it wraps the error of
    [GetParameter], after both calls. *)
Theorem AWSParameter_call_error (name : string) (ttl : Duration) (o : oracle)
    (st st' : captured) (tok : string) (err : error)
    (calls : list remote_call) :
  AWSParameter_call name ttl o st = Some (Return tok (Some err), st', calls) →
  tok = EmptyString
  ∧ st' = st
  ∧ ((o_ctx_err o = Some err ∧ calls = [])
     ∨ (∃ cause : error,
          o_load o = Some cause
          ∧ errors_Unwrap err = Some cause
          ∧ calls = [call_LoadDefaultConfig])
     ∨ (∃ cause : error,
          o_load o = None
          ∧ o_get o = inr cause
          ∧ errors_Unwrap err = Some cause
          ∧ calls = [call_LoadDefaultConfig; call_GetParameter name])).
Proof.
  unfold AWSParameter_call.
  destruct (select (lock st) (o_ctx_err o) (o_pick o)) as [[]|] eqn:Hsel;
    [| |discriminate].
  - pose proof (SlackSpec.select_send_unlocked _ _ _ Hsel) as Hl.
    assert (set_lock false (set_lock true st) = st) as Hsame.
    { destruct st as [l t e]. simpl in Hl. subst l. reflexivity. }
    unfold critical.
    destruct (Before (o_now_check o) (expiry (set_lock true st)));
      [discriminate|].
    destruct (o_load o) as [cause|]; simpl.
    + intros [= <- <- <- <-]. split; [reflexivity|]. split; [exact Hsame|].
      right; left. exists cause. auto.
    + destruct (o_get o) as [output|cause]; simpl.
      * destruct (out_Parameter output ≫= p_Value); discriminate.
      * intros [= <- <- <- <-]. split; [reflexivity|]. split; [exact Hsame|].
        right; right. exists cause. auto.
  - intros [= <- Herr <- <-]. split; [reflexivity|]. split; [reflexivity|].
    left. auto.
Qed.

Lemma AWSParameter_call_error_witness :
  errors_Unwrap
    (fmt_Errorf_w "loading Slack token parameter: " context_DeadlineExceeded)
  = Some context_DeadlineExceeded.
Proof.
  destruct (AWSParameter_call_error "/slack/token" 120
              (mkOracle None case_send 100 None
                 (inr context_DeadlineExceeded) 107)
              {| lock := false; token := "cached"; expiry := 100 |}
              {| lock := false; token := "cached"; expiry := 100 |}
              EmptyString
              (fmt_Errorf_w "loading Slack token parameter: "
                 context_DeadlineExceeded)
              [call_LoadDefaultConfig; call_GetParameter "/slack/token"]
              eq_refl)
    as (_ & _ & [(H & _)|[(c & H & _)|(c & _ & Hget & Hunwrap & _)]]);
    try discriminate H.
  injection Hget as <-. exact Hunwrap.
Defined.

(** X10. Take a call that got in and found the cache expired. If the
    configuration loads and [GetParameter] returns, without error, an output
    whose [Parameter] or [Value] pointer is nil, the call panics at the
    dereference, after both remote calls. The panic leaves [token] and
    [expiry] as they were, and the deferred function frees the lock on the
    way out. *)
Theorem AWSParameter_call_panic (name : string) (ttl : Duration) (o : oracle)
    (st : captured) (output : ssm_GetParameterOutput) :
  select (lock st) (o_ctx_err o) (o_pick o) = Some case_send →
  expiry st ≤ o_now_check o →
  o_load o = None →
  o_get o = inl output →
  out_Parameter output = None
  ∨ (∃ p : ssm_Parameter, out_Parameter output = Some p ∧ p_Value p = None) →
  AWSParameter_call name ttl o st
  = Some (Panic, st, [call_LoadDefaultConfig; call_GetParameter name])
  ∧ lock st = false
  ∧ thread_step ttl (ev_get (inl output)) (set_lock true st) at_get
    = Some (set_lock true st, at_defer Panic)
  ∧ thread_step ttl ev_defer (set_lock true st) (at_defer Panic)
    = Some (st, finished Panic).
Proof.
  intros Hsel Hge Hload Hget Hnil.
  pose proof (SlackSpec.select_send_unlocked _ _ _ Hsel) as Hl.
  assert (out_Parameter output ≫= p_Value = None) as Hv.
  { destruct Hnil as [->|(p & -> & Hp)]; [reflexivity|exact Hp]. }
  assert (set_lock false (set_lock true st) = st) as Hsame.
  { destruct st as [l t e]. simpl in Hl. subst l. reflexivity. }
  split; [|split; [exact Hl|split]].
  - rewrite (SlackSpec.AWSParameter_call_entered _ _ _ _ Hsel).
    unfold critical, Before. rewrite (proj2 (Z.ltb_ge _ _) Hge).
    rewrite Hload, Hget. simpl. rewrite Hv.
    rewrite (SlackSpec.set_lock_same _ _ Hl). reflexivity.
  - simpl. rewrite Hv. reflexivity.
  - simpl. rewrite Hsame. reflexivity.
Qed.

Lemma AWSParameter_call_panic_witness :
  AWSParameter_call "/slack/token" 120
    (mkOracle None case_send 100 None
       (inl (mkOutput (Some (mkParameter None)))) 107)
    {| lock := false; token := "cached"; expiry := 100 |}
  = Some (Panic, {| lock := false; token := "cached"; expiry := 100 |},
          [call_LoadDefaultConfig; call_GetParameter "/slack/token"]).
Proof.
  refine (proj1 (AWSParameter_call_panic "/slack/token" 120
            (mkOracle None case_send 100 None
               (inl (mkOutput (Some (mkParameter None)))) 107)
            {| lock := false; token := "cached"; expiry := 100 |}
            (mkOutput (Some (mkParameter None)))
            eq_refl _ eq_refl eq_refl _)).
  - simpl. lia.
  - right. exists (mkParameter None). split; reflexivity.
Defined.

Lemma AWSParameter_call_fetched (name : string) (ttl : Duration) (o : oracle)
    (st : captured) (v : string) :
  select (lock st) (o_ctx_err o) (o_pick o) = Some case_send →
  expiry st ≤ o_now_check o →
  o_load o = None →
  o_get o = inl (mkOutput (Some (mkParameter (Some v)))) →
  AWSParameter_call name ttl o st
  = Some (Return v None,
          {| lock := false; token := v; expiry := o_now_store o + ttl |},
          [call_LoadDefaultConfig; call_GetParameter name]).
Proof.
  intros Hsel Hge Hload Hget.
  rewrite (SlackSpec.AWSParameter_call_entered _ _ _ _ Hsel).
  unfold critical, Before. rewrite (proj2 (Z.ltb_ge _ _) Hge).
  rewrite Hload, Hget. reflexivity.
Qed.

Lemma AWSParameter_call_expired (name : string) (ttl : Duration) (o : oracle)
    (st : captured) :
  select (lock st) (o_ctx_err o) (o_pick o) = Some case_send →
  expiry st ≤ o_now_check o →
  ∃ (r : outcome) (st' : captured) (calls : list remote_call),
    AWSParameter_call name ttl o st = Some (r, st', call_LoadDefaultConfig :: calls).
Proof.
  intros Hsel Hge.
  rewrite (SlackSpec.AWSParameter_call_entered _ _ _ _ Hsel).
  unfold critical, Before. rewrite (proj2 (Z.ltb_ge _ _) Hge).
  destruct (awsconfig_New (o_load o)); [eauto|].
  destruct (o_get o) as [output|e]; [|eauto].
  destruct (out_Parameter output ≫= p_Value); eauto.
Qed.

(** X11. After a call that fetched a value, the cache answers with that
    value, and without any remote call, every later call that gets in while
    the clock reads before the moment the value was stored plus the TTL. The
    first call that gets in at or after that moment goes to the
    configuration loader again. *)
Theorem AWSParameter_cache_window (name : string) (ttl : Duration)
    (o : oracle) (st : captured) (v : string) :
  select (lock st) (o_ctx_err o) (o_pick o) = Some case_send →
  expiry st ≤ o_now_check o →
  o_load o = None →
  o_get o = inl (mkOutput (Some (mkParameter (Some v)))) →
  ∃ st1 : captured,
    AWSParameter_call name ttl o st
    = Some (Return v None, st1,
            [call_LoadDefaultConfig; call_GetParameter name])
    ∧ ∀ o' : oracle,
        select (lock st1) (o_ctx_err o') (o_pick o') = Some case_send →
        (o_now_check o' < o_now_store o + ttl →
         AWSParameter_call name ttl o' st1 = Some (Return v None, st1, []))
        ∧ (o_now_store o + ttl ≤ o_now_check o' →
           ∃ (r : outcome) (st2 : captured) (calls : list remote_call),
             AWSParameter_call name ttl o' st1
             = Some (r, st2, call_LoadDefaultConfig :: calls)).
Proof.
  intros Hsel Hge Hload Hget.
  eexists. split; [by apply AWSParameter_call_fetched|].
  intros o' Hsel'. split.
  - intros Hlt. rewrite (SlackSpec.AWSParameter_call_entered _ _ _ _ Hsel').
    unfold critical, Before. simpl. rewrite (proj2 (Z.ltb_lt _ _) Hlt).
    reflexivity.
  - intros Hge'. by apply AWSParameter_call_expired.
Qed.

Lemma AWSParameter_cache_window_witness :
  AWSParameter_call "/slack/token" 120
    (mkOracle None case_send 226 None (inr (errors_New "unused")) 226)
    {| lock := false; token := "fresh"; expiry := 227 |}
  = Some (Return "fresh" None,
          {| lock := false; token := "fresh"; expiry := 227 |}, [])
  ∧ ∃ (r : outcome) (st2 : captured) (calls : list remote_call),
      AWSParameter_call "/slack/token" 120
        (mkOracle None case_send 227 None (inr (errors_New "down")) 228)
        {| lock := false; token := "fresh"; expiry := 227 |}
      = Some (r, st2, call_LoadDefaultConfig :: calls).
Proof.
  destruct (AWSParameter_cache_window "/slack/token" 120
              (mkOracle None case_send 100 None
                 (inl (mkOutput (Some (mkParameter (Some "fresh"))))) 107)
              {| lock := false; token := "cached"; expiry := 100 |} "fresh"
              eq_refl)
    as (st1 & Hcall & Hnext); [simpl; lia|reflexivity|reflexivity|].
  injection Hcall as <-.
  split.
  - apply (Hnext (mkOracle None case_send 226 None
                    (inr (errors_New "unused")) 226)); [reflexivity|].
    simpl. lia.
  - apply (Hnext (mkOracle None case_send 227 None
                    (inr (errors_New "down")) 228)); [reflexivity|].
    simpl. lia.
Defined.

(** X12. Nothing checks the sign of the TTL. With a TTL of zero or less a
    fetched value is expired the moment it is stored: as long as the clock
    does not go back, every later call that gets in goes to the
    configuration loader again, and the cache never answers. *)
Theorem AWSParameter_no_cache_without_ttl (name : string) (ttl : Duration)
    (o o' : oracle) (st : captured) (v : string) :
  ttl ≤ 0 →
  select (lock st) (o_ctx_err o) (o_pick o) = Some case_send →
  expiry st ≤ o_now_check o →
  o_load o = None →
  o_get o = inl (mkOutput (Some (mkParameter (Some v)))) →
  o_now_store o ≤ o_now_check o' →
  o_ctx_err o' = None ∨ o_pick o' = case_send →
  ∃ (st1 : captured) (r : outcome) (st2 : captured) (calls : list remote_call),
    AWSParameter_call name ttl o st
    = Some (Return v None, st1,
            [call_LoadDefaultConfig; call_GetParameter name])
    ∧ AWSParameter_call name ttl o' st1
      = Some (r, st2, call_LoadDefaultConfig :: calls).
Proof.
  intros Httl Hsel Hge Hload Hget Hmono Hin.
  eexists. 
  assert (select false (o_ctx_err o') (o_pick o') = Some case_send) as Hsel'.
  { unfold select. destruct Hin as [->| ->]; [reflexivity|].
    destruct (o_ctx_err o'); reflexivity. }
  destruct (AWSParameter_call_expired name ttl o'
              {| lock := false; token := v; expiry := o_now_store o + ttl |})
    as (r & st2 & calls & Hcall'); [exact Hsel'|simpl; lia|].
  exists r, st2, calls. split; [by apply AWSParameter_call_fetched|exact Hcall'].
Qed.

Lemma AWSParameter_no_cache_without_ttl_witness :
  ∃ (r : outcome) (st2 : captured) (calls : list remote_call),
    AWSParameter_call "/slack/token" 0
      (mkOracle None case_send 107 None (inr (errors_New "down")) 108)
      {| lock := false; token := "fresh"; expiry := 107 |}
    = Some (r, st2, call_LoadDefaultConfig :: calls).
Proof.
  destruct (AWSParameter_no_cache_without_ttl "/slack/token" 0
              (mkOracle None case_send 100 None
                 (inl (mkOutput (Some (mkParameter (Some "fresh"))))) 107)
              (mkOracle None case_send 107 None (inr (errors_New "down")) 108)
              {| lock := false; token := "cached"; expiry := 100 |} "fresh")
    as (st1 & r & st2 & calls & Hcall & Hnext);
    [lia|reflexivity|simpl; lia|reflexivity|reflexivity|simpl; lia
    |left; reflexivity|].
  injection Hcall as <-. eauto.
Defined.

(** *** Concurrent callers *)

Lemma reachable_lock_matches (ttl : Duration) (n : nat) (st0 : captured)
    (sched : list (nat * event)) (s : system) :
  lock st0 = false →
  system_run ttl sched (system_init st0 n) = Some s →
  lock_matches s.
Proof.
  intros Hfree Hrun.
  eapply SlackSpec.system_run_lock_matches; [|exact Hrun].
  by apply SlackSpec.system_init_lock_matches.
Qed.

(** X13. Among concurrent callers, [token] and [expiry] are written only
    from inside the critical section: a step that changes either is taken
    by a goroutine that holds the lock, while every other goroutine is
    outside. *)
Theorem writes_only_inside (ttl : Duration) (n : nat) (st0 : captured)
    (sched : list (nat * event)) (s s' : system) (tid : nat) (ev : event) :
  lock st0 = false →
  system_run ttl sched (system_init st0 n) = Some s →
  system_step ttl (tid, ev) s = Some s' →
  token (sys_captured s') ≠ token (sys_captured s)
  ∨ expiry (sys_captured s') ≠ expiry (sys_captured s) →
  lock (sys_captured s) = true
  ∧ (∃ p : pc, sys_threads s !! tid = Some p ∧ inside p = true)
  ∧ (∀ (tid' : nat) (p' : pc),
       tid' ≠ tid → sys_threads s !! tid' = Some p' → inside p' = false).
Proof.
  intros Hfree Hrun Hstep Hchange.
  pose proof (reachable_lock_matches _ _ _ _ _ Hfree Hrun) as Hinv.
  unfold system_step in Hstep.
  destruct (sys_threads s !! tid) as [p|] eqn:Hp; [|discriminate].
  simpl in Hstep.
  destruct (thread_step ttl ev (sys_captured s) p) as [[st' p']|] eqn:Hts;
    [|discriminate].
  injection Hstep as <-. simpl in Hchange.
  assert (inside p = true) as Hin.
  { destruct p; try reflexivity; exfalso; unfold thread_step in Hts;
      destruct ev; try discriminate Hts.
    destruct (select _ _ _) as [[]|]; try discriminate Hts;
      injection Hts as <- <-; simpl in Hchange; tauto. }
  split; [eapply SlackSpec.lock_matches_held; eassumption|].
  split; [eauto|].
  intros tid' q Hne Hq. destruct (inside q) eqn:Hinq; [|reflexivity].
  exfalso. apply Hne.
  eapply SlackSpec.inside_unique;
    [apply SlackSpec.lock_matches_le; exact Hinv|eassumption..].
Qed.

Lemma writes_only_inside_witness :
  lock {| lock := true; token := EmptyString; expiry := 0 |} = true.
Proof.
  apply (writes_only_inside 120 2 captured_init
           [ (0%nat, ev_select None case_send); (0%nat, ev_now 10);
             (0%nat, ev_load None) ]
           {| sys_captured := {| lock := true; token := EmptyString; expiry := 0 |};
              sys_threads := [at_get; at_select] |}
           {| sys_captured := {| lock := true; token := "fresh"; expiry := 0 |};
              sys_threads := [at_expiry; at_select] |}
           0%nat (ev_get (inl (mkOutput (Some (mkParameter (Some "fresh"))))))
           eq_refl eq_refl eq_refl).
  left. discriminate.
Defined.

Lemma inside_can_step (ttl : Duration) (st : captured) (p : pc) (ev : event) :
  inside p = true → lock st = true → awaits p ev = true →
  ∃ (st' : captured) (p' : pc), thread_step ttl ev st p = Some (st', p').
Proof.
  intros Hin Hl Hev.
  destruct p; try discriminate Hin; destruct ev; try discriminate Hev; simpl.
  - destruct (Before t (expiry st)); eauto.
  - destruct (awsconfig_New err); eauto.
  - destruct r as [output|e]; [|eauto].
    destruct (out_Parameter output ≫= p_Value); eauto.
  - eauto.
  - rewrite Hl. eauto.
Qed.

Lemma awaits_some (p : pc) :
  inside p = true → ∃ ev : event, awaits p ev = true ∧ live_event ev = true.
Proof.
  destruct p; try discriminate.
  - exists (ev_now 0). auto.
  - exists (ev_load None). auto.
  - exists (ev_get (inr context_Canceled)). auto.
  - exists (ev_now 0). auto.
  - exists ev_defer. auto.
Qed.

(** X14. Concurrent callers never deadlock, and owe it to no cancellation.
    A goroutine inside never waits for the others: whatever the outside
    answers to its next statement, it takes the step. When no goroutine is
    inside, the lock is free, and every goroutine at the [select] with a
    live context gets the lock. So, as long as some goroutine has not
    finished its call, some goroutine can take a step that is not the
    cancellation of a context. *)
Theorem no_deadlock (ttl : Duration) (n : nat) (st0 : captured)
    (sched : list (nat * event)) (s : system) :
  lock st0 = false →
  system_run ttl sched (system_init st0 n) = Some s →
  (∀ (tid : nat) (p : pc) (ev : event),
     sys_threads s !! tid = Some p → inside p = true → awaits p ev = true →
     is_Some (system_step ttl (tid, ev) s))
  ∧ ((∀ (tid : nat) (p : pc),
        sys_threads s !! tid = Some p → inside p = false) →
     lock (sys_captured s) = false
     ∧ ∀ (tid : nat) (pick : select_case),
         sys_threads s !! tid = Some at_select →
         system_step ttl (tid, ev_select None pick) s
         = Some {| sys_captured := set_lock true (sys_captured s);
                   sys_threads := <[tid := at_check]> (sys_threads s) |})
  ∧ ((∃ (tid : nat) (p : pc),
        sys_threads s !! tid = Some p ∧ ∀ r : outcome, p ≠ finished r) →
     ∃ (tid : nat) (ev : event) (s' : system),
       live_event ev = true ∧ system_step ttl (tid, ev) s = Some s').
Proof.
  intros Hfree Hrun.
  pose proof (reachable_lock_matches _ _ _ _ _ Hfree Hrun) as Hinv.
  assert (∀ (tid : nat) (p : pc) (ev : event),
            sys_threads s !! tid = Some p → inside p = true →
            awaits p ev = true →
            is_Some (system_step ttl (tid, ev) s)) as Hinside.
  { intros tid p ev Hp Hin Hev.
    pose proof (SlackSpec.lock_matches_held _ _ _ Hinv Hp Hin) as Hl.
    destruct (inside_can_step ttl (sys_captured s) p ev Hin Hl Hev)
      as (st' & p' & Hts).
    unfold system_step. rewrite Hp. simpl. rewrite Hts. simpl. eauto. }
  assert (∀ (tid : nat) (pick : select_case),
            lock (sys_captured s) = false →
            sys_threads s !! tid = Some at_select →
            system_step ttl (tid, ev_select None pick) s
            = Some {| sys_captured := set_lock true (sys_captured s);
                      sys_threads := <[tid := at_check]> (sys_threads s) |})
    as Henter.
  { intros tid pick Hl Hp. unfold system_step. rewrite Hp. simpl.
    rewrite Hl. reflexivity. }
  split; [exact Hinside|]. split.
  - intros Hnone.
    assert (lock (sys_captured s) = false) as Hl.
    { destruct (lock (sys_captured s)) eqn:Hl; [|reflexivity].
      destruct (SlackSpec.count_inside_exists (sys_threads s))
        as (tid1 & p1 & Hp1 & Hin1).
      { unfold lock_matches in Hinv. rewrite Hl in Hinv. lia. }
      rewrite (Hnone _ _ Hp1) in Hin1. discriminate. }
    split; [exact Hl|]. intros tid pick Hp. by apply Henter.
  - intros (tid & p & Hp & Hnot).
    destruct (lock (sys_captured s)) eqn:Hl.
    + destruct (SlackSpec.count_inside_exists (sys_threads s))
        as (tid1 & p1 & Hp1 & Hin1).
      { unfold lock_matches in Hinv. rewrite Hl in Hinv. lia. }
      destruct (awaits_some p1 Hin1) as (ev & Hev & Hlive).
      destruct (Hinside tid1 p1 ev Hp1 Hin1 Hev) as [s' Hs'].
      eauto.
    + destruct (inside p) eqn:Hin.
      { pose proof (SlackSpec.lock_matches_held _ _ _ Hinv Hp Hin). congruence. }
      destruct p; try discriminate Hin; [|exfalso; by eapply Hnot].
      exists tid, (ev_select None case_send). eexists.
      split; [reflexivity|]. by apply Henter.
Qed.

Lemma no_deadlock_witness :
  ∃ (tid : nat) (ev : event) (s' : system),
    live_event ev = true
    ∧ system_step 120 (tid, ev)
        {| sys_captured := {| lock := false; token := EmptyString; expiry := 0 |};
           sys_threads :=
             [ finished (Return EmptyString
                 (Some (fmt_Errorf_w "loading AWS config: "
                          (errors_New "no credentials"))));
               at_select ] |}
      = Some s'.
Proof.
  destruct (no_deadlock 120 2 captured_init
              [ (0%nat, ev_select None case_send); (0%nat, ev_now 10);
                (0%nat, ev_load (Some (errors_New "no credentials")));
                (0%nat, ev_defer) ]
              {| sys_captured := {| lock := false; token := EmptyString; expiry := 0 |};
                 sys_threads :=
                   [ finished (Return EmptyString
                       (Some (fmt_Errorf_w "loading AWS config: "
                                (errors_New "no credentials"))));
                     at_select ] |}
              eq_refl eq_refl) as (_ & _ & Hstep).
  apply Hstep. exists 1%nat, at_select. split; [reflexivity|].
  intros r. discriminate.
Defined.

Lemma sum_list_with_insert {A : Type} (f : A → nat) (l : list A) (i : nat)
    (x y : A) :
  l !! i = Some x →
  (sum_list_with f (<[i := y]> l) + f x = sum_list_with f l + f y)%nat.
Proof.
  revert i. induction l as [|a l IH]; intros i Hi; [discriminate|].
  destruct i as [|i]; simpl in *.
  - injection Hi as ->. lia.
  - specialize (IH i Hi). lia.
Qed.

(** A quantity that every step of a goroutine pays for out of what the
    goroutine has left bounds the whole run by what the goroutines had at
    the start. *)
Lemma system_run_potential (ttl : Duration) (left : pc → nat)
    (cost : nat * event → nat) :
  (∀ (tid : nat) (ev : event) (st st' : captured) (p p' : pc),
     thread_step ttl ev st p = Some (st', p') →
     (left p' + cost (tid, ev) ≤ left p)%nat) →
  ∀ (sched : list (nat * event)) (s s' : system),
    system_run ttl sched s = Some s' →
    (sum_list_with left (sys_threads s') + sum_list_with cost sched
     ≤ sum_list_with left (sys_threads s))%nat.
Proof.
  intros Hpay sched. induction sched as [|[tid ev] sched IH]; intros s s' Hrun;
    simpl in Hrun.
  - injection Hrun as <-. simpl. lia.
  - destruct (sys_threads s !! tid) as [p|] eqn:Hp; [|discriminate].
    simpl in Hrun.
    destruct (thread_step ttl ev (sys_captured s) p) as [[st1 p1]|] eqn:Hts;
      [|discriminate].
    simpl in Hrun. specialize (IH _ _ Hrun). simpl in IH.
    pose proof (Hpay tid _ _ _ _ _ Hts).
    pose proof (sum_list_with_insert left _ tid p p1 Hp). simpl. lia.
Qed.

Lemma thread_step_steps_left (ttl : Duration) (ev : event) (st st' : captured)
    (p p' : pc) :
  thread_step ttl ev st p = Some (st', p') →
  (steps_left p' + 1 ≤ steps_left p)%nat.
Proof.
  unfold thread_step. intros H. destruct p, ev; try discriminate H.
  - destruct (select _ _ _) as [[]|]; try discriminate H;
      injection H as <- <-; simpl; lia.
  - destruct (Before _ _); injection H as <- <-; simpl; lia.
  - destruct (awsconfig_New _); injection H as <- <-; simpl; lia.
  - destruct r as [output|e]; [|injection H as <- <-; simpl; lia].
    destruct (out_Parameter output ≫= p_Value); injection H as <- <-;
      simpl; lia.
  - injection H as <- <-. simpl. lia.
  - destruct (lock st); [|discriminate]. injection H as <- <-. simpl. lia.
Qed.

Lemma thread_step_fetch_ahead (ttl : Duration) (tid : nat) (ev : event)
    (st st' : captured) (p p' : pc) :
  thread_step ttl ev st p = Some (st', p') →
  (fetch_ahead p' + (if is_get (tid, ev) then 1 else 0) ≤ fetch_ahead p)%nat.
Proof.
  unfold thread_step, is_get. intros H. destruct p, ev; try discriminate H;
    simpl.
  - destruct (select _ _ _) as [[]|]; try discriminate H;
      injection H as <- <-; simpl; lia.
  - destruct (Before _ _); injection H as <- <-; simpl; lia.
  - destruct (awsconfig_New _); injection H as <- <-; simpl; lia.
  - destruct r as [output|e]; [|injection H as <- <-; simpl; lia].
    destruct (out_Parameter output ≫= p_Value); injection H as <- <-;
      simpl; lia.
  - injection H as <- <-. simpl. lia.
  - destruct (lock st); [|discriminate]. injection H as <- <-. simpl. lia.
Qed.

Lemma count_fetches_sum (sched : list (nat * event)) :
  count_fetches sched
  = sum_list_with (λ l, if is_get l then 1%nat else 0%nat) sched.
Proof.
  unfold count_fetches. induction sched as [|l sched IH]; [reflexivity|].
  rewrite filter_cons. simpl.
  destruct (is_get l); case_decide; try congruence; simpl; lia.
Qed.

Lemma length_sum {A : Type} (l : list A) :
  length l = sum_list_with (λ _, 1%nat) l.
Proof. induction l as [|a l IH]; simpl; lia. Qed.

Lemma sum_list_with_replicate {A : Type} (f : A → nat) (n : nat) (x : A) :
  sum_list_with f (replicate n x) = (n * f x)%nat.
Proof. induction n as [|n IH]; simpl; lia. Qed.

(** X15. A call is straight-line code: whatever the schedule and whatever
    the outside answers, a goroutine takes at most six steps and calls
    [GetParameter] at most once. So [n] concurrent calls take at most [6 n]
    steps and make at most [n] fetches: there is no retry loop. *)
Theorem bounded_work (ttl : Duration) (n : nat) (st0 : captured)
    (sched : list (nat * event)) (s : system) :
  system_run ttl sched (system_init st0 n) = Some s →
  (length sched ≤ 6 * n)%nat ∧ (count_fetches sched ≤ n)%nat.
Proof.
  intros Hrun. split.
  - pose proof (system_run_potential ttl steps_left (λ _, 1%nat)
                  (λ _ ev st st' p p', thread_step_steps_left ttl ev st st' p p')
                  _ _ _ Hrun) as H.
    simpl in H. rewrite sum_list_with_replicate in H.
    rewrite length_sum. simpl in H. lia.
  - pose proof (system_run_potential ttl fetch_ahead
                  (λ l, if is_get l then 1%nat else 0%nat)
                  (λ tid ev st st' p p',
                     thread_step_fetch_ahead ttl tid ev st st' p p')
                  _ _ _ Hrun) as H.
    simpl in H. rewrite sum_list_with_replicate in H.
    rewrite count_fetches_sum. simpl in H. lia.
Qed.

Lemma bounded_work_witness :
  Nat.le
    (count_fetches
       [ (0%nat, ev_select None case_send); (0%nat, ev_now 10);
         (0%nat, ev_load None); (0%nat, ev_get (inr (errors_New "throttled")));
         (0%nat, ev_defer);
         (1%nat, ev_select None case_send); (1%nat, ev_now 10);
         (1%nat, ev_load None);
         (1%nat, ev_get (inl (mkOutput (Some (mkParameter (Some "fresh"))))));
         (1%nat, ev_now 10); (1%nat, ev_defer) ])
    2.
Proof.
  apply (bounded_work 120 2 captured_init
           [ (0%nat, ev_select None case_send); (0%nat, ev_now 10);
             (0%nat, ev_load None);
             (0%nat, ev_get (inr (errors_New "throttled")));
             (0%nat, ev_defer);
             (1%nat, ev_select None case_send); (1%nat, ev_now 10);
             (1%nat, ev_load None);
             (1%nat, ev_get (inl (mkOutput (Some (mkParameter (Some "fresh"))))));
             (1%nat, ev_now 10); (1%nat, ev_defer) ]
           {| sys_captured := {| lock := false; token := "fresh"; expiry := 130 |};
              sys_threads :=
                [ finished (Return EmptyString
                    (Some (fmt_Errorf_w "loading Slack token parameter: "
                             (errors_New "throttled"))));
                  finished (Return "fresh" None) ] |}
           eq_refl).
Defined.

Lemma before_fetch_carries (tok : string) (p : pc) :
  before_fetch p = true → carries tok p.
Proof. destruct p as [| | | | |[t [e|]|]|[t [e|]|]]; simpl; done. Qed.

Lemma while_storing_carries (tok : string) (p : pc) :
  while_storing p = true → carries tok p.
Proof. destruct p as [| | | | |[t [e|]|]|[t [e|]|]]; simpl; done. Qed.

(** Only the statement after [GetParameter] writes [token]. *)
Lemma thread_step_token (ttl : Duration) (ev : event) (st st' : captured)
    (p p' : pc) :
  thread_step ttl ev st p = Some (st', p') →
  token st' = token st ∨ p = at_get.
Proof.
  unfold thread_step. intros H. destruct p, ev; try discriminate H; auto.
  - destruct (select _ _ _) as [[]|]; try discriminate H;
      injection H as <- <-; auto.
  - destruct (Before _ _); injection H as <- <-; auto.
  - destruct (awsconfig_New _); injection H as <- <-; auto.
  - injection H as <- <-. auto.
  - destruct (lock st); [|discriminate]. injection H as <- <-. auto.
Qed.

(** A goroutine that steps takes with it the token the cache holds. *)
Lemma thread_step_carries (ttl : Duration) (ev : event) (st st' : captured)
    (p p' : pc) :
  thread_step ttl ev st p = Some (st', p') →
  carries (token st) p → carries (token st') p'.
Proof.
  unfold thread_step. intros H Hc. destruct p, ev; try discriminate H.
  - destruct (select (lock st) ctx_err pick) as [[]|] eqn:Hsel;
      try discriminate H; injection H as <- <-; simpl; [done|].
    destruct (SlackSpec.select_done_err _ _ _ Hsel) as [e ->]. done.
  - destruct (Before _ _); injection H as <- <-; simpl; done.
  - destruct (awsconfig_New _); injection H as <- <-; simpl; done.
  - destruct r as [output|e]; [|injection H as <- <-; simpl; done].
    destruct (out_Parameter output ≫= p_Value); injection H as <- <-;
      simpl; done.
  - injection H as <- <-. simpl. done.
  - destruct (lock st); [|discriminate]. injection H as <- <-.
    destruct r as [t [e|]|]; simpl in *; done.
Qed.

Lemma system_step_carries (t0 : Time) (ttl : Duration) (l : nat * event)
    (s s' : system) (k : nat) :
  single_flight_phase t0 ttl k s →
  Forall (carries (token (sys_captured s))) (sys_threads s) →
  system_step ttl l s = Some s' →
  Forall (carries (token (sys_captured s'))) (sys_threads s').
Proof.
  destruct l as [tid ev]. destruct s as [st ps].
  unfold system_step. simpl. intros Hphase Hall Hstep.
  destruct (ps !! tid) as [p|] eqn:Hp; [|discriminate]. simpl in Hstep.
  destruct (thread_step ttl ev st p) as [[st' p']|] eqn:Hts; [|discriminate].
  injection Hstep as <-. simpl.
  pose proof (thread_step_carries _ _ _ _ _ _ Hts
                (Forall_lookup_1 _ _ _ _ Hall Hp)) as Hp'.
  apply Forall_insert; [|exact Hp'].
  destruct (thread_step_token _ _ _ _ _ _ Hts) as [->| ->]; [exact Hall|].
  unfold single_flight_phase in Hphase. simpl in Hphase.
  destruct Hphase as [(_ & _ & Hpre)|[(_ & _ & Hmid)|(_ & _ & Hpost)]].
  - eapply Forall_impl; [exact Hpre|]. intros q. apply before_fetch_carries.
  - pose proof (Forall_lookup_1 _ _ _ _ Hmid Hp). discriminate.
  - pose proof (Forall_lookup_1 _ _ _ _ Hpost Hp). discriminate.
Qed.

Lemma system_run_carries (t0 : Time) (ttl : Duration)
    (sched : list (nat * event)) (s s' : system) (k : nat) :
  lock_matches s →
  single_flight_phase t0 ttl k s →
  Forall (carries (token (sys_captured s))) (sys_threads s) →
  good_schedule t0 ttl sched = true →
  system_run ttl sched s = Some s' →
  Forall (carries (token (sys_captured s'))) (sys_threads s').
Proof.
  revert s k. induction sched as [|l sched IH];
    intros s k Hinv Hphase Hall Hgood Hrun; simpl in Hrun.
  - injection Hrun as <-. exact Hall.
  - destruct (system_step ttl l s) as [s1|] eqn:Hstep; [|discriminate].
    simpl in Hrun, Hgood. apply andb_true_iff in Hgood as [Hl Hrest].
    eapply (IH s1); [| | |exact Hrest|exact Hrun].
    + eapply SlackSpec.system_step_lock_matches; eassumption.
    + eapply SlackSpec.system_step_phase; eassumption.
    + eapply system_step_carries; eassumption.
Qed.

(** X16. When the cache starts expired and the outside behaves (the clock
    stays within one TTL of the start, the configuration loads,
    [GetParameter] answers with a value), all concurrent callers that
    return a token return the same one, the one the cache holds at the
    end. None of them returns a value from before the fetch. *)
Theorem callers_agree (ttl : Duration) (n : nat) (st0 : captured)
    (sched : list (nat * event)) (s : system) (t0 : Time) :
  lock st0 = false →
  expiry st0 ≤ t0 →
  good_schedule t0 ttl sched = true →
  system_run ttl sched (system_init st0 n) = Some s →
  ∀ (tid : nat) (tok : string),
    sys_threads s !! tid = Some (finished (Return tok None)) →
    tok = token (sys_captured s).
Proof.
  intros Hfree Hexp Hgood Hrun tid tok Hp.
  assert (Forall (carries (token (sys_captured s))) (sys_threads s)) as Hall.
  { eapply (system_run_carries t0 ttl sched (system_init st0 n) s 0%nat);
      [by apply SlackSpec.system_init_lock_matches
      |by apply SlackSpec.system_init_phase
      | |exact Hgood|exact Hrun].
    simpl. apply Forall_replicate. exact I. }
  exact (Forall_lookup_1 _ _ _ _ Hall Hp).
Qed.

Lemma callers_agree_witness :
  "fresh" = token {| lock := false; token := "fresh"; expiry := 135 |}.
Proof.
  apply (callers_agree 120 3 captured_init
       [ (0%nat, ev_select None case_send); (0%nat, ev_now 10);
         (2%nat, ev_select (Some context_Canceled) case_send);
         (0%nat, ev_load None);
         (0%nat, ev_get (inl (mkOutput (Some (mkParameter (Some "fresh"))))));
         (0%nat, ev_now 15); (0%nat, ev_defer);
         (1%nat, ev_select None case_send); (1%nat, ev_now 20);
         (1%nat, ev_defer) ]
       {| sys_captured := {| lock := false; token := "fresh"; expiry := 135 |};
          sys_threads :=
            [ finished (Return "fresh" None);
              finished (Return "fresh" None);
              finished (Return EmptyString (Some context_Canceled)) ] |}
       10 eq_refl) with (tid := 1%nat); try reflexivity.
  unfold captured_init, time_zero. simpl. lia.
Defined.

End SlackExtra.
